(** * Funhouse mirror: curve normalisation and displacement mapping

    A shallow embedding of [convertCurveDataToSegments], [applyDistortion]
    and the dispatch in [render] of the FunhouseMirrorWebcam component,
    with the properties of its curve-to-distortion pipeline.

    Numbers.  A JavaScript number is modelled by [num]: an exact rational
    or one of the three special values of IEEE arithmetic (+Infinity,
    -Infinity, NaN).  The special values arise as they do in JavaScript
    (division by zero, Infinity - Infinity, 0 * Infinity) and propagate
    through comparisons with the IEEE truth tables, so the guards of the
    code ([curveY >= minY], [sourceX < w], [y2 - y1 || 1]) behave as they do
    on the machine.  Rounding of finite results, overflow and the sign of
    zero are not modelled: finite arithmetic is exact.  The properties are
    stated so as not to depend on it: as identities between the expressions
    the program evaluates, as comparisons that rounding preserves, or under
    bounds on the magnitudes ([midRange]) that exclude overflow.

    Objects.  A [curveData] of the data model is a record with its
    [bounds]; the reference to it and its [lineSegments] may be [null] or
    [undefined], which is [option], and reading through such a reference
    throws a [TypeError], which is [result].  The module [Untyped] has the
    same functions on objects as JavaScript passes them, in which [bounds]
    and the entries of [lineSegments] can be absent too, and on frames that
    can be empty; on a [curveData] of the data model and a frame with pixels
    the two agree.

    Frames.  An [ImageData] is its width, its height and the bytes of its
    [Uint8ClampedArray]; reads and stores are those of a typed array (a read
    outside the array is [undefined], a store outside it is ignored).  The
    pixel loop carries, next to the output buffer, the list of indices at
    which it has read the source frame. *)

From Stdlib Require Import ZArith QArith Qround Qreduction Qfield Lia Lqa Bool.
From stdpp Require Import base list strings.

Local Open Scope Z_scope.

(** ** Numbers *)

Module Num.

Inductive num : Type :=
| Fin (q : Q)
| PInf
| NInf
| NaN.

(** Finite results are kept in lowest terms, so that a value has one
    representation, as a JavaScript number has. *)
Definition fin (q : Q) : num := Fin (Qred q).

Definition of_Z (z : Z) : num := Fin (inject_Z z).
Definition of_nat (n : nat) : num := of_Z (Z.of_nat n).

Definition zero : num := of_Z 0.
Definition one : num := of_Z 1.
Definition two : num := of_Z 2.
Definition four : num := of_Z 4.
(** The literal [0.5]. *)
Definition half : num := Fin (1 # 2).

(** Sign of a number, as a comparison with zero ([Eq] also for NaN). *)
Definition sign (n : num) : comparison :=
  match n with
  | Fin q => (q ?= 0)%Q
  | PInf => Gt
  | NInf => Lt
  | NaN => Eq
  end.

Definition sign_mul (a b : comparison) : comparison :=
  match a, b with
  | Eq, _ | _, Eq => Eq
  | Gt, c => c
  | Lt, c => CompOpp c
  end.

(** The infinity of a given sign; no sign gives NaN. *)
Definition inf_of (c : comparison) : num :=
  match c with
  | Gt => PInf
  | Lt => NInf
  | Eq => NaN
  end.

Definition neg (a : num) : num :=
  match a with
  | Fin q => fin (- q)
  | PInf => NInf
  | NInf => PInf
  | NaN => NaN
  end.

Definition add (a b : num) : num :=
  match a, b with
  | NaN, _ | _, NaN => NaN
  | Fin p, Fin q => fin (p + q)
  | PInf, NInf | NInf, PInf => NaN
  | PInf, _ | _, PInf => PInf
  | NInf, _ | _, NInf => NInf
  end.

Definition sub (a b : num) : num :=
  match a, b with
  | Fin p, Fin q => fin (p - q)
  | _, _ => add a (neg b)
  end.

Definition mul (a b : num) : num :=
  match a, b with
  | NaN, _ | _, NaN => NaN
  | Fin p, Fin q => fin (p * q)
  | _, _ => inf_of (sign_mul (sign a) (sign b))
  end.

(** Division.  A finite number over zero is the infinity of the sign of the
    numerator, and zero over zero is NaN. *)
Definition div (a b : num) : num :=
  match a, b with
  | NaN, _ | _, NaN => NaN
  | Fin p, Fin q => if Qeq_bool q 0 then inf_of (sign a) else fin (p / q)
  | Fin _, _ => zero
  | _, Fin q => inf_of (sign_mul (sign a) (if Qeq_bool q 0 then Gt else sign b))
  | _, _ => NaN
  end.

(** [a <= b]; false whenever an operand is NaN. *)
Definition le (a b : num) : bool :=
  match a, b with
  | NaN, _ | _, NaN => false
  | Fin p, Fin q => Qle_bool p q
  | NInf, _ | _, PInf => true
  | _, _ => false
  end.

(** [a < b]; false whenever an operand is NaN. *)
Definition lt (a b : num) : bool :=
  match a, b with
  | NaN, _ | _, NaN => false
  | Fin p, Fin q => negb (Qle_bool q p)
  | PInf, _ | _, NInf => false
  | _, _ => true
  end.

Definition ge (a b : num) : bool := le b a.
Definition gt (a b : num) : bool := lt b a.

(** [a === b] on numbers: NaN equals nothing, itself included. *)
Definition eqb (a b : num) : bool :=
  match a, b with
  | Fin p, Fin q => Qeq_bool p q
  | PInf, PInf | NInf, NInf => true
  | _, _ => false
  end.

(** [Math.min] and [Math.max]: NaN when an argument is NaN. *)
Definition min (a b : num) : num :=
  match a, b with
  | NaN, _ | _, NaN => NaN
  | _, _ => if le a b then a else b
  end.

Definition max (a b : num) : num :=
  match a, b with
  | NaN, _ | _, NaN => NaN
  | _, _ => if le a b then b else a
  end.

(** [Math.floor]. *)
Definition floor (a : num) : num :=
  match a with
  | Fin q => of_Z (Qfloor q)
  | _ => a
  end.

(** Truthiness of a number: zero and NaN are falsy. *)
Definition truthy (a : num) : bool :=
  match a with
  | Fin q => negb (Qeq_bool q 0)
  | PInf | NInf => true
  | NaN => false
  end.

(** [a || b] on numbers. *)
Definition or_else (a b : num) : num := if truthy a then a else b.

Definition is_finite (a : num) : bool :=
  match a with
  | Fin _ => true
  | _ => false
  end.

Definition is_nan (a : num) : bool :=
  match a with
  | NaN => true
  | _ => false
  end.

(** The array index a number denotes, if it is a non-negative integer. *)
Definition index_of (a : num) : option nat :=
  match a with
  | Fin q =>
      if Qeq_bool q (inject_Z (Qfloor q)) && (0 <=? Qfloor q)
      then Some (Z.to_nat (Qfloor q))
      else None
  | _ => None
  end.

End Num.

Import Num.

(** ** Exceptions *)

(** A computation returns a value or throws a [TypeError] (reading a
    property of [null] or [undefined], iterating a non-iterable). *)
Inductive result (A : Type) : Type :=
| Ok (a : A)
| TypeError.
Arguments Ok {A} a.
Arguments TypeError {A}.

Definition bind {A B : Type} (r : result A) (k : A -> result B) : result B :=
  match r with
  | Ok a => k a
  | TypeError => TypeError
  end.

Notation "'let*' x ':=' r 'in' k" := (bind r (fun x => k))
  (at level 10, x pattern, r at level 100, k at level 200).

(** Reading through a reference that may be [null] or [undefined]. *)
Definition deref {A : Type} (o : option A) : result A :=
  match o with
  | Some a => Ok a
  | None => TypeError
  end.

(** ** Data model *)

Record CanvasBounds : Type := mkBounds {
  bounds_x : num;
  yTop : num;
  yBottom : num
}.

Record LineSegment : Type := mkSeg {
  x1 : num;
  y1 : num;
  x2 : num;
  y2 : num
}.

(** [lineSegments] may be absent; [curveData] itself may be absent, which is
    the [option CurveData] of the functions below. *)
Record CurveData : Type := mkCurve {
  bounds : CanvasBounds;
  lineSegments : option (list LineSegment)
}.

Record PhysicalSegment : Type := mkPhys {
  yMin : num;
  yMax : num;
  z0 : num;
  z1 : num;
  z2 : num
}.

(** ** The curve normaliser: [convertCurveDataToSegments] *)

(** The guard
    [!curveData || !curveData.lineSegments || curveData.lineSegments.length === 0]. *)
Definition noCurve (curveData : option CurveData) : bool :=
  match curveData with
  | None => true
  | Some c =>
      match lineSegments c with
      | None => true
      | Some segs => Nat.eqb (length segs) 0
      end
  end.

(** The flat-mirror default: [-0.4], [0.4] and three zeros. *)
Definition defaultSegment : list PhysicalSegment :=
  [ {| yMin := Fin (-2 # 5); yMax := Fin (2 # 5);
       z0 := zero; z1 := zero; z2 := zero |} ].

Definition physicalHalfHeight : num := two.
Definition physicalMaxDepth : num := one.

(** The body of the [map] callback. *)
Definition convertSegment (bounds : CanvasBounds) (seg : LineSegment) : PhysicalSegment :=
  let canvasHeight := sub (yBottom bounds) (yTop bounds) in
  let canvasWidth := bounds_x bounds in
  let y1Physical :=
    sub (mul (div (sub (y1 seg) (yTop bounds)) canvasHeight)
             (mul two physicalHalfHeight))
        physicalHalfHeight in
  let y2Physical :=
    sub (mul (div (sub (y2 seg) (yTop bounds)) canvasHeight)
             (mul two physicalHalfHeight))
        physicalHalfHeight in
  let yMin := Num.min y1Physical y2Physical in
  let yMax := Num.max y1Physical y2Physical in
  let x1Depth :=
    neg (mul (div (sub (bounds_x bounds) (x1 seg)) canvasWidth) physicalMaxDepth) in
  let x2Depth :=
    neg (mul (div (sub (bounds_x bounds) (x2 seg)) canvasWidth) physicalMaxDepth) in
  let '(z0, z2) :=
    if le y1Physical y2Physical then (x1Depth, x2Depth) else (x2Depth, x1Depth) in
  let z1 := div (add z0 z2) two in
  {| yMin := yMin; yMax := yMax; z0 := z0; z1 := z1; z2 := z2 |}.

Definition convertCurveDataToSegments (curveData : option CurveData)
  : result (list PhysicalSegment) :=
  if noCurve curveData then Ok defaultSegment
  else
    let* c := deref curveData in
    let bounds := bounds c in
    let* segs := deref (lineSegments c) in
    let result := map (convertSegment bounds) segs in
    Ok result.

(** ** Frames *)

(** An [ImageData]: [data] holds four channel bytes per pixel, row by row. *)
Record ImageData : Type := mkImage {
  width : nat;
  height : nat;
  data : list Byte.byte
}.

(** What [getImageData] and [createImageData] guarantee of their result. *)
Definition wf_image (img : ImageData) : Prop :=
  length (data img) = (4 * (width img * height img))%nat.

(** [createImageData(w, h)]: transparent black. *)
Definition createImageData (w h : nat) : ImageData :=
  {| width := w; height := h; data := replicate (4 * (w * h)) Byte.x00 |}.

(** [arr[i]] on a typed array: [None] is [undefined]. *)
Definition load (arr : list Byte.byte) (i : num) : option Byte.byte :=
  match index_of i with
  | Some n => arr !! n
  | None => None
  end.

(** [arr[i] = v] on a typed array: [undefined] is stored as 0, and a store
    outside the array is ignored. *)
Definition store (arr : list Byte.byte) (i : num) (v : option Byte.byte) : list Byte.byte :=
  match index_of i with
  | Some n => <[n := default Byte.x00 v]> arr
  | None => arr
  end.

(** ** The displacement mapper: [applyDistortion] *)

(** [curveY >= minY && curveY <= maxY] for a segment. *)
Definition contains (seg : LineSegment) (curveY : num) : bool :=
  let minY := Num.min (y1 seg) (y2 seg) in
  let maxY := Num.max (y1 seg) (y2 seg) in
  ge curveY minY && le curveY maxY.

(** The interpolation parameter [t] of a matched segment. *)
Definition interpolation (seg : LineSegment) (curveY : num) : num :=
  div (sub curveY (y1 seg)) (or_else (sub (y2 seg) (y1 seg)) one).

(** [seg.x1 + t * (seg.x2 - seg.x1)]. *)
Definition interpolate (seg : LineSegment) (curveY : num) : num :=
  let t := interpolation seg curveY in
  add (x1 seg) (mul t (sub (x2 seg) (x1 seg))).

(** The [for (const seg of curve.lineSegments)] loop with its [break]:
    [curveX] is the value the variable has when the loop is entered. *)
Fixpoint scanSegments (segs : list LineSegment) (curveY curveX : num) : num :=
  match segs with
  | [] => curveX
  | seg :: rest =>
      if contains seg curveY then interpolate seg curveY
      else scanSegments rest curveY curveX
  end.

(** The part the four rotation branches share: from [curveY] and the extent
    that scales the offset ([w] or [h]) to [disp]. *)
Definition displacement (bounds : CanvasBounds) (segs : list LineSegment)
    (curveY : num) (extent : nat) : num :=
  let xRange := bounds_x bounds in
  let curveX := scanSegments segs curveY (bounds_x bounds) in
  let offset := div (sub (bounds_x bounds) curveX) xRange in
  mul (mul offset (of_nat extent)) half.

(** [(sourceX, sourceY)] of the output pixel [(x, y)]. *)
Definition sourceCoord (curve : CurveData) (rot : num) (w h x y : nat)
  : result (num * num) :=
  let bounds := bounds curve in
  let yRange := sub (yBottom bounds) (yTop bounds) in
  if eqb rot (of_Z 0) then
    let curveY := add (yTop bounds) (mul (div (of_nat y) (of_nat h)) yRange) in
    let* segs := deref (lineSegments curve) in
    let disp := displacement bounds segs curveY w in
    Ok (floor (sub (of_nat x) disp), of_nat y)
  else if eqb rot (of_Z 90) then
    let curveY := add (yTop bounds) (mul (div (of_nat x) (of_nat w)) yRange) in
    let* segs := deref (lineSegments curve) in
    let disp := displacement bounds segs curveY h in
    Ok (of_nat x, floor (sub (of_nat y) disp))
  else if eqb rot (of_Z 180) then
    let curveY :=
      add (yTop bounds) (mul (div (sub (of_nat h) (of_nat y)) (of_nat h)) yRange) in
    let* segs := deref (lineSegments curve) in
    let disp := displacement bounds segs curveY w in
    Ok (floor (add (of_nat x) disp), of_nat y)
  else if eqb rot (of_Z 270) then
    let curveY :=
      add (yTop bounds) (mul (div (sub (of_nat w) (of_nat x)) (of_nat w)) yRange) in
    let* segs := deref (lineSegments curve) in
    let disp := displacement bounds segs curveY h in
    Ok (of_nat x, floor (add (of_nat y) disp))
  else Ok (of_nat x, of_nat y).

(** [sourceX >= 0 && sourceX < w && sourceY >= 0 && sourceY < h]. *)
Definition inFrame (w h : nat) (sourceX sourceY : num) : bool :=
  ge sourceX zero && lt sourceX (of_nat w) && ge sourceY zero && lt sourceY (of_nat h).

(** The state of the pixel loop: the output buffer, and the indices at which
    the source frame has been read so far. *)
Record Canvas : Type := mkCanvas {
  outputData : list Byte.byte;
  reads : list num
}.

(** [outputData.data[targetIdx + k] = imageData.data[sourceIdx + k]]. *)
Definition copyChannel (imageData : list Byte.byte) (sourceIdx targetIdx : num) (k : Z)
    (c : Canvas) : Canvas :=
  {| outputData :=
       store (outputData c) (add targetIdx (of_Z k))
             (load imageData (add sourceIdx (of_Z k)));
     reads := reads c ++ [add sourceIdx (of_Z k)] |}.

(** The guarded copy at the end of the loop body. *)
Definition copyPixel (imageData : list Byte.byte) (w h : nat) (sourceX sourceY : num)
    (x y : nat) (c : Canvas) : Canvas :=
  if inFrame w h sourceX sourceY then
    let sourceIdx := mul (add (mul sourceY (of_nat w)) sourceX) four in
    let targetIdx := mul (add (mul (of_nat y) (of_nat w)) (of_nat x)) four in
    copyChannel imageData sourceIdx targetIdx 3
      (copyChannel imageData sourceIdx targetIdx 2
        (copyChannel imageData sourceIdx targetIdx 1
          (copyChannel imageData sourceIdx targetIdx 0 c)))
  else c.

(** A [for] loop over a list whose body may throw. *)
Fixpoint forEach {A S : Type} (body : S -> A -> result S) (l : list A) (s : S)
  : result S :=
  match l with
  | [] => Ok s
  | a :: l' => let* s' := body s a in forEach body l' s'
  end.

(** The body of the inner loop, for the pixel [(x, y)]. *)
Definition pixelStep (imageData : ImageData) (curve : CurveData) (rot : num)
    (y : nat) (c : Canvas) (x : nat) : result Canvas :=
  let w := width imageData in
  let h := height imageData in
  let* source := sourceCoord curve rot w h x y in
  let '(sourceX, sourceY) := source in
  Ok (copyPixel (data imageData) w h sourceX sourceY x y c).

(** The two nested loops, started on a fresh output buffer. *)
Definition distort (imageData : ImageData) (curve : option CurveData) (rot : num)
  : result Canvas :=
  let w := width imageData in
  let h := height imageData in
  let outputData := createImageData w h in
  let* curve := deref curve in
  forEach (fun c y => forEach (pixelStep imageData curve rot y) (seq 0 w) c)
          (seq 0 h)
          {| outputData := data outputData; reads := [] |}.

(** [applyDistortion]: the frame that [putImageData] draws. *)
Definition applyDistortion (imageData : ImageData) (curve : option CurveData) (rot : num)
  : result ImageData :=
  let* c := distort imageData curve rot in
  Ok {| width := width imageData; height := height imageData; data := outputData c |}.

(** ** The dispatch in [render] *)

(** [curveData && curveData.lineSegments && curveData.lineSegments.length > 0]. *)
Definition hasCurve (curveData : option CurveData) : bool :=
  match curveData with
  | None => false
  | Some c =>
      match lineSegments c with
      | None => false
      | Some segs => Nat.ltb 0 (length segs)
      end
  end.

(** What one tick of [render] draws for the frame [video] delivers: the
    frame itself ([drawImage]) or its distortion. *)
Definition render (frame : ImageData) (curveData : option CurveData) (rotation : num)
  : result ImageData :=
  if negb (hasCurve curveData) then Ok frame
  else applyDistortion frame curveData rotation.

(** * Specification vocabulary *)

(** [val a q]: the number [a] is finite, of value [q]. *)
Definition val (a : num) (q : Q) : Prop := exists p, a = Fin p /\ p == q.

(** A source coordinate is integral when it is an integer or a special
    value: the two forms [Math.floor] and a loop counter can take. *)
Definition integral (n : num) : Prop :=
  (exists z, n = of_Z z) \/ is_finite n = false.

(** The four tests [rot === 0], [rot === 90], [rot === 180], [rot === 270]. *)
Definition knownRotation (r : num) : bool :=
  eqb r (of_Z 0) || eqb r (of_Z 90) || eqb r (of_Z 180) || eqb r (of_Z 270).

(** The depth map of the normaliser. *)
Definition depth (bounds : CanvasBounds) (x : num) : num :=
  neg (mul (div (sub (bounds_x bounds) x) (bounds_x bounds)) physicalMaxDepth).

(** The linear map of canvas rows onto the physical height. *)
Definition physicalY (bounds : CanvasBounds) (y : num) : num :=
  sub (mul (div (sub y (yTop bounds)) (sub (yBottom bounds) (yTop bounds)))
           (mul two physicalHalfHeight))
      physicalHalfHeight.

(** [z1 == (z0 + z2) / 2], as the comparison of two numbers. *)
Definition midpoint (p : PhysicalSegment) : bool :=
  eqb (z1 p) (div (add (z0 p) (z2 p)) two).

(** The four stores of one in-frame pixel, as list updates. *)
Definition copied (imageData : list Byte.byte) (s t : nat) (out : list Byte.byte)
  : list Byte.byte :=
  <[(t + 3)%nat := default Byte.x00 (imageData !! (s + 3)%nat)]>
    (<[(t + 2)%nat := default Byte.x00 (imageData !! (s + 2)%nat)]>
      (<[(t + 1)%nat := default Byte.x00 (imageData !! (s + 1)%nat)]>
        (<[(t + 0)%nat := default Byte.x00 (imageData !! (s + 0)%nat)]> out))).

(** The index of the first channel of the source pixel. *)
Definition sourceIndex (w : nat) (sx sy : num) : nat :=
  match index_of sx, index_of sy with
  | Some a, Some b => 4 * (b * w + a)
  | _, _ => 0
  end.

(** The value channel [k] of an output pixel ends with. *)
Definition expected (img : ImageData) (sx sy : num) (k : nat) : Byte.byte :=
  if inFrame (width img) (height img) sx sy
  then default Byte.x00 (data img !! (sourceIndex (width img) sx sy + k)%nat)
  else Byte.x00.

(** A read of the source frame is in bounds when its index is one of the
    array. *)
Definition inBounds (img : ImageData) (r : num) : Prop :=
  exists j, r = of_nat j /\ (j < length (data img))%nat.

(** The loop body, once the source coordinate [src x y] of each pixel is
    known. *)
Definition paint (imageData : ImageData) (src : nat -> nat -> num * num)
    (y : nat) (c : Canvas) (x : nat) : Canvas :=
  copyPixel (data imageData) (width imageData) (height imageData)
            (fst (src x y)) (snd (src x y)) x y c.

(** The state of the loop after the pixels of linear index below [n]. *)
Definition loop_inv (imageData : ImageData) (src : nat -> nat -> num * num)
    (c : Canvas) (n : nat) : Prop :=
  let w := width imageData in
  let h := height imageData in
  length (outputData c) = (4 * (w * h))%nat /\
  (forall x y k, (x < w)%nat -> (y < h)%nat -> (k < 4)%nat -> (y * w + x < n)%nat ->
     outputData c !! (4 * (y * w + x) + k)%nat =
     Some (expected imageData (fst (src x y)) (snd (src x y)) k)) /\
  (forall i, (4 * n <= i)%nat -> (i < 4 * (w * h))%nat ->
     outputData c !! i = Some Byte.x00) /\
  Forall (inBounds imageData) (reads c).

(** The run of the two loops. *)
Definition painted (imageData : ImageData) (src : nat -> nat -> num * num) : Canvas :=
  fold_left (fun c y => fold_left (paint imageData src y) (seq 0 (width imageData)) c)
            (seq 0 (height imageData))
            {| outputData := data (createImageData (width imageData) (height imageData));
               reads := [] |}.

(** ** Frames and curves of the examples *)

(** The four channels of a pixel. *)
Definition px (r g b a : Byte.byte) : list Byte.byte := [r; g; b; a].

Definition frame1x1 : ImageData :=
  {| width := 1; height := 1; data := px Byte.xff Byte.x80 Byte.x40 Byte.xff |}.


Definition frame2x2 : ImageData :=
  {| width := 2; height := 2;
     data := px Byte.x01 Byte.x02 Byte.x03 Byte.xff ++ px Byte.x11 Byte.x12 Byte.x13 Byte.xff
          ++ px Byte.x21 Byte.x22 Byte.x23 Byte.xff ++ px Byte.x31 Byte.x32 Byte.x33 Byte.xff |}.

Definition frame640x480 : ImageData :=
  {| width := 640; height := 480; data := replicate (4 * (640 * 480)) Byte.x7f |}.

(** The curve of the scenario: bounds [{x: 400, yTop: 50, yBottom: 550}] and
    the segment [{x1: 400, y1: 50, x2: 300, y2: 550}]. *)
Definition scenarioBounds : CanvasBounds := mkBounds (of_Z 400) (of_Z 50) (of_Z 550).
Definition scenarioSegment : LineSegment :=
  mkSeg (of_Z 400) (of_Z 50) (of_Z 300) (of_Z 550).
Definition scenarioCurve : CurveData :=
  {| bounds := scenarioBounds; lineSegments := Some [scenarioSegment] |}.

(** A curve with finite bounds whose centreline is the column 0. *)
Definition zeroWidthCurve : CurveData :=
  {| bounds := mkBounds (of_Z 0) (of_Z 0) (of_Z 1);
     lineSegments := Some [ mkSeg (of_Z 0) (of_Z 0) (of_Z 0) (of_Z 1) ] |}.

(** A curve whose only segment lies below the canvas rows it is asked
    about, with the centreline at column 0. *)
Definition offCurve : CurveData :=
  {| bounds := mkBounds (of_Z 0) (of_Z 0) (of_Z 10);
     lineSegments := Some [ mkSeg (of_Z 5) (of_Z 100) (of_Z 7) (of_Z 200) ] |}.

(** One segment down the centreline [bx], from [yTop] to [yBottom]. *)
Definition centrelineCurve (bx yt yb : Q) : CurveData :=
  {| bounds := mkBounds (Fin bx) (Fin yt) (Fin yb);
     lineSegments := Some [ mkSeg (Fin bx) (Fin yt) (Fin bx) (Fin yb) ] |}.

(** ** The controls *)

(** [a % b] on numbers: the remainder has the sign of the dividend. *)
Definition rem (a b : num) : num :=
  match a, b with
  | Fin p, Fin q =>
      if Qeq_bool q 0 then NaN
      else
        let n := (p / q)%Q in
        let truncated := if Qle_bool 0 n then Qfloor n else Qceiling n in
        fin (p - q * inject_Z truncated)
  | Fin _, (PInf | NInf) => a
  | _, _ => NaN
  end.

(** The updater of [rotateDistortion]: [prev => (prev + 90) % 360]. *)
Definition rotateDistortion (prev : num) : num :=
  rem (add prev (of_Z 90)) (of_Z 360).

(** The rotation after [n] uses of the control, from [useState(0)]. *)
Definition rotationAfter (n : nat) : num := Nat.iter n rotateDistortion (of_Z 0).

(** ** The camera *)

(** What the [catch] of [startCamera] reads of the error it is given. *)
Record CameraError : Type := mkError {
  err_name : string;
  err_message : string
}.

(** The message [startCamera] shows in its [alert]. *)
Definition cameraErrorMessage (err : CameraError) : string :=
  let errorMessage := "Camera error: " in
  if String.eqb (err_name err) "NotFoundError"
     || String.eqb (err_name err) "DevicesNotFoundError" then
    errorMessage +:+ "No camera found. Please connect a camera and try again."
  else if String.eqb (err_name err) "NotAllowedError"
          || String.eqb (err_name err) "PermissionDeniedError" then
    errorMessage
    +:+ "Camera access denied. Please allow camera permissions in your browser settings."
  else if String.eqb (err_name err) "NotReadableError"
          || String.eqb (err_name err) "TrackStartError" then
    errorMessage
    +:+ "Camera is already in use by another application. Please close other apps using the camera."
  else
    errorMessage +:+ err_message err.

(** ** More vocabulary *)

(** A finite number written by [fin] is determined by its value. *)
Definition canonical (a : num) : Prop := exists r, a = fin r.

(** A segment with finite coordinates whose ends lie in the columns
    [lo .. hi]. *)
Definition finiteSegment (lo hi : Q) (s : LineSegment) : Prop :=
  exists a1 c1 a2 c2 : Q,
    s = mkSeg (Fin a1) (Fin c1) (Fin a2) (Fin c2) /\
    (lo <= a1 <= hi)%Q /\ (lo <= a2 <= hi)%Q.

(** A coordinate of magnitude at most 2^1022.  The difference of two such
    numbers is below the largest double, so a subtraction of the program on
    them does not overflow. *)
Definition midRange (q : Q) : Prop :=
  (- inject_Z (2 ^ 1022) <= q)%Q /\ (q <= inject_Z (2 ^ 1022))%Q.

(** A segment whose two rows are finite and of magnitude at most 2^1022. *)
Definition midRangeRows (s : LineSegment) : Prop :=
  exists c1 c2 : Q, y1 s = Fin c1 /\ y2 s = Fin c2 /\ midRange c1 /\ midRange c2.

(** * The component on untyped objects *)

(** The functions above take a [curveData] of the data model.  In the
    program it is a JavaScript object: its [bounds], its [lineSegments] and
    each entry of [lineSegments] can be [null] or [undefined], and the frame
    can be empty.  [Untyped] is the same code on such objects, with every
    property read that can throw. *)
Module Untyped.

Record CurveObject : Type := mkObject {
  obj_bounds : option CanvasBounds;
  obj_lineSegments : option (list (option LineSegment))
}.

(** How a call ends: with a value, with a [TypeError], or with the
    [IndexSizeError] of [getImageData] on an empty rectangle. *)
Inductive outcome (A : Type) : Type :=
| Returned (a : A)
| TypeErrorThrown
| IndexSizeErrorThrown.
Arguments Returned {A} a.
Arguments TypeErrorThrown {A}.
Arguments IndexSizeErrorThrown {A}.

(** [!curveData || !curveData.lineSegments || curveData.lineSegments.length === 0]. *)
Definition noCurve (curveData : option CurveObject) : bool :=
  match curveData with
  | None => true
  | Some c =>
      match obj_lineSegments c with
      | None => true
      | Some segs => Nat.eqb (length segs) 0
      end
  end.

(** [lineSegments.map(seg => ...)]: the callback reads [seg.y1]. *)
Fixpoint convertEach (bounds : CanvasBounds) (segs : list (option LineSegment))
  : result (list PhysicalSegment) :=
  match segs with
  | [] => Ok []
  | seg :: rest =>
      let* s := deref seg in
      let* out := convertEach bounds rest in
      Ok (convertSegment bounds s :: out)
  end.

Definition convertCurveDataToSegments (curveData : option CurveObject)
  : result (list PhysicalSegment) :=
  if noCurve curveData then Ok defaultSegment
  else
    let* c := deref curveData in
    let bounds := obj_bounds c in
    (* [bounds.yBottom - bounds.yTop] *)
    let* bounds := deref bounds in
    let* segs := deref (obj_lineSegments c) in
    convertEach bounds segs.

(** The segment loop: [seg.y1] is read before the interval is tested. *)
Fixpoint scanSegments (segs : list (option LineSegment)) (curveY curveX : num)
  : result num :=
  match segs with
  | [] => Ok curveX
  | seg :: rest =>
      let* s := deref seg in
      if contains s curveY then Ok (interpolate s curveY)
      else scanSegments rest curveY curveX
  end.

(** [for (const seg of curve.lineSegments)] throws when there is no list. *)
Definition displacement (bounds : CanvasBounds)
    (lineSegments : option (list (option LineSegment))) (curveY : num) (extent : nat)
  : result num :=
  let xRange := bounds_x bounds in
  let* segs := deref lineSegments in
  let* curveX := scanSegments segs curveY (bounds_x bounds) in
  let offset := div (sub (bounds_x bounds) curveX) xRange in
  Ok (mul (mul offset (of_nat extent)) half).

Definition sourceCoord (bounds : CanvasBounds)
    (lineSegments : option (list (option LineSegment))) (rot : num) (w h x y : nat)
  : result (num * num) :=
  let yRange := sub (yBottom bounds) (yTop bounds) in
  if eqb rot (of_Z 0) then
    let curveY := add (yTop bounds) (mul (div (of_nat y) (of_nat h)) yRange) in
    let* disp := displacement bounds lineSegments curveY w in
    Ok (floor (sub (of_nat x) disp), of_nat y)
  else if eqb rot (of_Z 90) then
    let curveY := add (yTop bounds) (mul (div (of_nat x) (of_nat w)) yRange) in
    let* disp := displacement bounds lineSegments curveY h in
    Ok (of_nat x, floor (sub (of_nat y) disp))
  else if eqb rot (of_Z 180) then
    let curveY :=
      add (yTop bounds) (mul (div (sub (of_nat h) (of_nat y)) (of_nat h)) yRange) in
    let* disp := displacement bounds lineSegments curveY w in
    Ok (floor (add (of_nat x) disp), of_nat y)
  else if eqb rot (of_Z 270) then
    let curveY :=
      add (yTop bounds) (mul (div (sub (of_nat w) (of_nat x)) (of_nat w)) yRange) in
    let* disp := displacement bounds lineSegments curveY h in
    Ok (of_nat x, floor (add (of_nat y) disp))
  else Ok (of_nat x, of_nat y).

Definition pixelStep (imageData : ImageData) (bounds : CanvasBounds)
    (lineSegments : option (list (option LineSegment))) (rot : num)
    (y : nat) (c : Canvas) (x : nat) : result Canvas :=
  let w := width imageData in
  let h := height imageData in
  let* source := sourceCoord bounds lineSegments rot w h x y in
  let '(sourceX, sourceY) := source in
  Ok (copyPixel (data imageData) w h sourceX sourceY x y c).

(** The body of [applyDistortion] after [getImageData]. *)
Definition distort (imageData : ImageData) (curve : option CurveObject) (rot : num)
  : result Canvas :=
  let w := width imageData in
  let h := height imageData in
  let outputData := createImageData w h in
  let* curve := deref curve in
  let bounds := obj_bounds curve in
  (* [bounds.yBottom - bounds.yTop] *)
  let* bounds := deref bounds in
  forEach (fun c y =>
             forEach (pixelStep imageData bounds (obj_lineSegments curve) rot y) (seq 0 w) c)
          (seq 0 h)
          {| outputData := data outputData; reads := [] |}.

(** [getImageData(0, 0, w, h)] throws an [IndexSizeError] when [w] or [h]
    is zero. *)
Definition applyDistortion (imageData : ImageData) (curve : option CurveObject) (rot : num)
  : outcome ImageData :=
  if Nat.eqb (width imageData) 0 || Nat.eqb (height imageData) 0 then IndexSizeErrorThrown
  else
    match distort imageData curve rot with
    | Ok c =>
        Returned {| width := width imageData; height := height imageData;
                    data := outputData c |}
    | TypeError => TypeErrorThrown
    end.

(** [curveData && curveData.lineSegments && curveData.lineSegments.length > 0]. *)
Definition hasCurve (curveData : option CurveObject) : bool :=
  match curveData with
  | None => false
  | Some c =>
      match obj_lineSegments c with
      | None => false
      | Some segs => Nat.ltb 0 (length segs)
      end
  end.

(** One tick of [render], from the test of the size of the video on: the
    frame drawn, if one is. *)
Definition render (frame : ImageData) (curveData : option CurveObject) (rotation : num)
  : outcome (option ImageData) :=
  if Nat.ltb 0 (width frame) && Nat.ltb 0 (height frame) then
    if negb (hasCurve curveData) then Returned (Some frame)
    else
      match applyDistortion frame curveData rotation with
      | Returned out => Returned (Some out)
      | TypeErrorThrown => TypeErrorThrown
      | IndexSizeErrorThrown => IndexSizeErrorThrown
      end
  else Returned None.

End Untyped.

(** A curve of the data model, as an object. *)
Definition asObject (c : CurveData) : Untyped.CurveObject :=
  {| Untyped.obj_bounds := Some (bounds c);
     Untyped.obj_lineSegments := option_map (map Some) (lineSegments c) |}.

(** ** More curves of the examples *)

(** The straight centreline of bounds whose [yBottom] is [Infinity]. *)
Definition infiniteCentreline : CurveData :=
  {| bounds := mkBounds (of_Z 400) (of_Z 0) PInf;
     lineSegments := Some [ mkSeg (of_Z 400) (of_Z 0) (of_Z 400) PInf ] |}.

(** A segment of zero vertical extent at the row [Infinity]. *)
Definition infiniteRow : LineSegment := mkSeg (of_Z 400) PInf (of_Z 300) PInf.


(** * Properties *)

(** Case analysis on every guard of the goal. *)
Ltac case_guards :=
  repeat match goal with |- context [if ?b then _ else _] => destruct b end.

(** ** Arithmetic of [num] *)

Section NumFacts.

Lemma Qred_inject_Z (z : Z) : Qred (inject_Z z) = inject_Z z.
Proof.
  unfold Qred, inject_Z.
  pose proof (Z.ggcd_gcd z 1) as Hg.
  pose proof (Z.ggcd_correct_divisors z 1) as Hd.
  destruct (Z.ggcd z 1) as [g [aa bb]]; simpl in *.
  rewrite Z.gcd_1_r in Hg. subst g.
  destruct Hd as [Ha Hb].
  rewrite Z.mul_1_l in Ha, Hb. subst aa bb. reflexivity.
Qed.

Lemma fin_inject_Z (z : Z) : fin (inject_Z z) = of_Z z.
Proof. unfold fin, of_Z. now rewrite Qred_inject_Z. Qed.

Lemma add_of_Z (a b : Z) : add (of_Z a) (of_Z b) = of_Z (a + b).
Proof.
  unfold of_Z, add, fin. rewrite <- (Qred_inject_Z (a + b)).
  apply (f_equal Fin), Qred_complete. rewrite inject_Z_plus. reflexivity.
Qed.

Lemma mul_of_Z (a b : Z) : mul (of_Z a) (of_Z b) = of_Z (a * b).
Proof.
  unfold of_Z, mul, fin. rewrite <- (Qred_inject_Z (a * b)).
  apply (f_equal Fin), Qred_complete. rewrite inject_Z_mult. reflexivity.
Qed.

Lemma le_of_Z (a b : Z) : le (of_Z a) (of_Z b) = (a <=? b).
Proof.
  unfold of_Z, le. apply eq_true_iff_eq.
  rewrite Qle_bool_iff, <- Zle_Qle. symmetry. apply Z.leb_le.
Qed.

Lemma lt_of_Z (a b : Z) : lt (of_Z a) (of_Z b) = (a <? b).
Proof.
  change (lt (of_Z a) (of_Z b)) with (negb (le (of_Z b) (of_Z a))).
  rewrite le_of_Z. now rewrite Z.ltb_antisym.
Qed.

Lemma index_of_of_Z (z : Z) : 0 <= z -> index_of (of_Z z) = Some (Z.to_nat z).
Proof.
  intros Hz. unfold index_of, of_Z. rewrite Qfloor_Z.
  rewrite Qeq_bool_refl. simpl.
  destruct (Z.leb_spec 0 z); [reflexivity | lia].
Qed.

Lemma index_of_of_nat (n : nat) : index_of (of_nat n) = Some n.
Proof.
  unfold of_nat. rewrite index_of_of_Z by lia. now rewrite Nat2Z.id.
Qed.

(** [Math.floor] returns an integer or a special value. *)
Lemma floor_cases (a : num) :
  (exists z, floor a = of_Z z) \/ is_finite (floor a) = false.
Proof. destruct a; simpl; eauto. Qed.

Lemma range_nonfinite (a : num) (n : Z) :
  is_finite a = false -> ge a zero && lt a (of_Z n) = false.
Proof.
  unfold ge. destruct a; simpl; intros; try discriminate; reflexivity.
Qed.

Lemma val_Fin (q : Q) : val (Fin q) q.
Proof. exists q. split; [reflexivity | apply Qeq_refl]. Qed.

Lemma val_of_Z (z : Z) : val (of_Z z) (inject_Z z).
Proof. apply val_Fin. Qed.

Lemma val_of_nat (n : nat) : val (of_nat n) (inject_Z (Z.of_nat n)).
Proof. apply val_Fin. Qed.

Lemma val_fin (p q : Q) : p == q -> val (fin p) q.
Proof. intros H. exists (Qred p). split; [reflexivity|]. now rewrite Qred_correct. Qed.

Lemma val_eq (a : num) (p q : Q) : val a p -> p == q -> val a q.
Proof. intros (r & -> & Hr) Hpq. exists r. split; [reflexivity|]. now rewrite Hr. Qed.

Lemma val_add (a b : num) (p q : Q) : val a p -> val b q -> val (add a b) (p + q).
Proof.
  intros (p' & -> & Hp) (q' & -> & Hq). simpl. apply val_fin. now rewrite Hp, Hq.
Qed.

Lemma val_sub (a b : num) (p q : Q) : val a p -> val b q -> val (sub a b) (p - q).
Proof.
  intros (p' & -> & Hp) (q' & -> & Hq). simpl. apply val_fin. now rewrite Hp, Hq.
Qed.

Lemma val_mul (a b : num) (p q : Q) : val a p -> val b q -> val (mul a b) (p * q).
Proof.
  intros (p' & -> & Hp) (q' & -> & Hq). simpl. apply val_fin. now rewrite Hp, Hq.
Qed.

Lemma val_neg (a : num) (p : Q) : val a p -> val (neg a) (- p).
Proof. intros (p' & -> & Hp). simpl. apply val_fin. now rewrite Hp. Qed.

Lemma val_div (a b : num) (p q : Q) :
  val a p -> val b q -> ~ q == 0 -> val (div a b) (p / q).
Proof.
  intros (p' & -> & Hp) (q' & -> & Hq) Hne. simpl.
  destruct (Qeq_bool q' 0) eqn:E.
  - apply Qeq_bool_iff in E. rewrite Hq in E. contradiction.
  - apply val_fin. now rewrite Hp, Hq.
Qed.

Lemma val_floor (a : num) (p : Q) : val a p -> floor a = of_Z (Qfloor p).
Proof. intros (p' & -> & Hp). simpl. now rewrite Hp. Qed.

Lemma val_le (a b : num) (p q : Q) : val a p -> val b q -> le a b = Qle_bool p q.
Proof. intros (p' & -> & Hp) (q' & -> & Hq). simpl. now rewrite Hp, Hq. Qed.

Lemma val_truthy (a : num) (p : Q) : val a p -> ~ p == 0 -> truthy a = true.
Proof.
  intros (p' & -> & Hp) Hne. simpl.
  destruct (Qeq_bool p' 0) eqn:E; [|reflexivity].
  apply Qeq_bool_iff in E. rewrite Hp in E. contradiction.
Qed.

End NumFacts.

(** ** The guarded copy *)

Section CopyPixel.

Lemma add_of_nat (a b : nat) : add (of_nat a) (of_nat b) = of_nat (a + b).
Proof. unfold of_nat. rewrite add_of_Z. f_equal. lia. Qed.

Lemma mul_of_nat (a b : nat) : mul (of_nat a) (of_nat b) = of_nat (a * b).
Proof. unfold of_nat. rewrite mul_of_Z. f_equal. lia. Qed.

Lemma of_Z_of_nat (n : nat) : of_Z (Z.of_nat n) = of_nat n.
Proof. reflexivity. Qed.

(** The index of the first channel of the pixel [(a, b)]. *)
Lemma pixel_index (w a b : nat) :
  mul (add (mul (of_nat b) (of_nat w)) (of_nat a)) four = of_nat (4 * (b * w + a)).
Proof.
  change four with (of_nat 4).
  rewrite mul_of_nat, add_of_nat, mul_of_nat. f_equal. lia.
Qed.

Lemma channel_index (s : nat) (k : Z) :
  0 <= k -> add (of_nat s) (of_Z k) = of_nat (s + Z.to_nat k).
Proof.
  intros Hk. unfold of_nat. rewrite add_of_Z. f_equal. lia.
Qed.

Lemma inFrame_of_nat (w h a b : nat) :
  inFrame w h (of_nat a) (of_nat b) = true <-> (a < w)%nat /\ (b < h)%nat.
Proof.
  unfold inFrame, ge, zero, of_nat.
  rewrite !le_of_Z, !lt_of_Z, !andb_true_iff.
  rewrite !Z.leb_le, !Z.ltb_lt. lia.
Qed.

Lemma integral_floor (a : num) : integral (floor a).
Proof. apply floor_cases. Qed.

Lemma integral_of_nat (n : nat) : integral (of_nat n).
Proof. left. now exists (Z.of_nat n). Qed.

(** Inside the guard the source coordinate names a pixel of the frame. *)
Lemma inFrame_integral (w h : nat) (sx sy : num) :
  integral sx -> integral sy -> inFrame w h sx sy = true ->
  exists a b : nat, sx = of_nat a /\ sy = of_nat b /\ (a < w)%nat /\ (b < h)%nat.
Proof.
  intros [[zx ->] | Hx] [[zy ->] | Hy] Hin.
  - unfold inFrame, ge, zero, of_nat in Hin.
    rewrite !le_of_Z, !lt_of_Z, !andb_true_iff in Hin.
    rewrite !Z.leb_le, !Z.ltb_lt in Hin.
    exists (Z.to_nat zx), (Z.to_nat zy). unfold of_nat.
    rewrite !Z2Nat.id by lia. repeat split; lia.
  - unfold inFrame in Hin. rewrite <- andb_assoc in Hin.
    apply andb_true_iff in Hin as [_ Hin].
    unfold of_nat in Hin. rewrite (range_nonfinite sy _ Hy) in Hin. discriminate.
  - unfold inFrame, of_nat in Hin. rewrite (range_nonfinite sx _ Hx) in Hin. discriminate.
  - unfold inFrame, of_nat in Hin. rewrite (range_nonfinite sx _ Hx) in Hin. discriminate.
Qed.

Lemma copyPixel_inside (imageData : list Byte.byte) (w h a b x y : nat) (c : Canvas) :
  (a < w)%nat -> (b < h)%nat ->
  copyPixel imageData w h (of_nat a) (of_nat b) x y c =
  {| outputData :=
       copied imageData (4 * (b * w + a)) (4 * (y * w + x)) (outputData c);
     reads := reads c ++ map (fun k => of_nat (4 * (b * w + a) + k)) [0; 1; 2; 3]%nat |}.
Proof.
  intros Ha Hb. unfold copyPixel.
  assert (inFrame w h (of_nat a) (of_nat b) = true) as -> by (apply inFrame_of_nat; lia).
  rewrite !pixel_index.
  cbv beta iota delta [copyChannel outputData reads load store copied].
  rewrite !channel_index by lia. rewrite !index_of_of_nat.
  rewrite <- !app_assoc. reflexivity.
Qed.

Lemma copyPixel_outside (imageData : list Byte.byte) (w h : nat) (sx sy : num)
    (x y : nat) (c : Canvas) :
  inFrame w h sx sy = false -> copyPixel imageData w h sx sy x y c = c.
Proof. intros H. unfold copyPixel. now rewrite H. Qed.

Lemma copied_length (imageData : list Byte.byte) (s t : nat) (out : list Byte.byte) :
  length (copied imageData s t out) = length out.
Proof. unfold copied. now rewrite !length_insert. Qed.

Lemma copied_other (imageData : list Byte.byte) (s t i : nat) (out : list Byte.byte) :
  (i < t \/ t + 4 <= i)%nat -> copied imageData s t out !! i = out !! i.
Proof.
  intros H. unfold copied. rewrite !list_lookup_insert_ne by lia. reflexivity.
Qed.

Lemma copied_channel (imageData : list Byte.byte) (s t k : nat) (out : list Byte.byte) :
  (k < 4)%nat -> (t + 4 <= length out)%nat ->
  copied imageData s t out !! (t + k)%nat = Some (default Byte.x00 (imageData !! (s + k)%nat)).
Proof.
  intros Hk Hlen. unfold copied.
  destruct k as [|[|[|[|k]]]]; [| | | |lia].
  - rewrite !list_lookup_insert_ne by lia.
    apply list_lookup_insert_eq. lia.
  - rewrite !list_lookup_insert_ne by lia.
    apply list_lookup_insert_eq. rewrite !length_insert. lia.
  - rewrite !list_lookup_insert_ne by lia.
    apply list_lookup_insert_eq. rewrite !length_insert. lia.
  - apply list_lookup_insert_eq. rewrite !length_insert. lia.
Qed.

End CopyPixel.

(** ** Source coordinates *)

Section SourceCoord.

Variables (curve : CurveData) (rot : num) (w h : nat).

Lemma sourceCoord_integral (x y : nat) (sx sy : num) :
  sourceCoord curve rot w h x y = Ok (sx, sy) -> integral sx /\ integral sy.
Proof.
  unfold sourceCoord.
  case_guards;
    try (destruct (lineSegments curve) as [segs|]; simpl; [|discriminate]);
    intros [= <- <-]; auto using integral_floor, integral_of_nat.
Qed.

(** With its segment list present, no branch throws. *)
Lemma sourceCoord_total (segs : list LineSegment) (x y : nat) :
  lineSegments curve = Some segs ->
  exists p, sourceCoord curve rot w h x y = Ok p.
Proof.
  intros Hs. unfold sourceCoord. rewrite Hs. simpl.
  case_guards; eauto.
Qed.


End SourceCoord.

(** ** The pixel loop *)

Section Loop.

Lemma forEach_pure {A S : Type} (body : S -> A -> result S) (g : S -> A -> S)
    (l : list A) (s : S) :
  (forall s a, In a l -> body s a = Ok (g s a)) ->
  forEach body l s = Ok (fold_left g l s).
Proof.
  revert s. induction l as [|a l IH]; intros s H; simpl; [reflexivity|].
  rewrite H by (now left). simpl. apply IH. intros s' a' Ha'. apply H. now right.
Qed.

(** Row-major indexing is injective. *)
Lemma linear_index_inj (w x y x' y' : nat) :
  (x < w)%nat -> (x' < w)%nat -> (y' * w + x' = y * w + x)%nat -> y' = y /\ x' = x.
Proof.
  intros Hx Hx' E.
  assert (y' = y) as ->; [|split; [reflexivity | lia]].
  destruct (Nat.lt_trichotomy y' y) as [H|[H|H]]; [|assumption|]; exfalso.
  - pose proof (Nat.mul_le_mono_r (S y') y w H). simpl in *. lia.
  - pose proof (Nat.mul_le_mono_r (S y) y' w H). simpl in *. lia.
Qed.

Lemma fold_left_seq_S {S : Type} (g : S -> nat -> S) (n : nat) (s : S) :
  fold_left g (seq 0 (Datatypes.S n)) s = g (fold_left g (seq 0 n) s) n.
Proof. rewrite seq_S, fold_left_app. reflexivity. Qed.

Variables (imageData : ImageData) (curve : CurveData) (rot : num).
Variable src : nat -> nat -> num * num.

Let w := width imageData.
Let h := height imageData.
Let d := data imageData.

Hypothesis Hwf : wf_image imageData.
Hypothesis Hsrc : forall x y, (x < w)%nat -> (y < h)%nat ->
  sourceCoord curve rot w h x y = Ok (src x y).

Lemma pixelStep_paint (y x : nat) (c : Canvas) :
  (x < w)%nat -> (y < h)%nat ->
  pixelStep imageData curve rot y c x = Ok (paint imageData src y c x).
Proof.
  intros Hx Hy. unfold pixelStep, paint. fold w h d. rewrite Hsrc by assumption. simpl.
  destruct (src x y) as [sx sy]. reflexivity.
Qed.

Lemma src_integral (x y : nat) :
  (x < w)%nat -> (y < h)%nat -> integral (fst (src x y)) /\ integral (snd (src x y)).
Proof.
  intros Hx Hy.
  apply (sourceCoord_integral curve rot w h x y). rewrite Hsrc by assumption.
  now destruct (src x y).
Qed.

Lemma loop_inv_init :
  loop_inv imageData src {| outputData := data (createImageData w h); reads := [] |} 0.
Proof.
  unfold loop_inv; simpl. fold w h. repeat split.
  - apply length_replicate.
  - intros; lia.
  - intros i _ Hi. now apply lookup_replicate_2.
  - constructor.
Qed.

Lemma loop_inv_step (c : Canvas) (x y : nat) :
  (x < w)%nat -> (y < h)%nat ->
  loop_inv imageData src c (y * w + x) ->
  loop_inv imageData src (paint imageData src y c x) (y * w + x + 1).
Proof.
  unfold loop_inv. cbv zeta. fold w h.
  intros Hx Hy (Hlen & Hdone & Hrest & Hreads).
  assert (4 * (y * w + x) + 4 <= 4 * (w * h))%nat as Hfit by nia.
  unfold paint. fold w h d.
  destruct (src_integral x y Hx Hy) as [Hix Hiy].
  destruct (inFrame w h (fst (src x y)) (snd (src x y))) eqn:Hin.
  - destruct (inFrame_integral _ _ _ _ Hix Hiy Hin) as (a & b & Ea & Eb & Ha & Hb).
    rewrite Ea, Eb, copyPixel_inside by assumption. simpl.
    rewrite copied_length. repeat split.
    + assumption.
    + intros x' y' k Hx' Hy' Hk Hlt.
      destruct (Nat.eq_dec (y' * w + x')%nat (y * w + x)%nat) as [E|E].
      * destruct (linear_index_inj w x y x' y' Hx Hx' E) as [-> ->].
        rewrite copied_channel by lia.
        unfold expected. fold w h d. rewrite Hin.
        unfold sourceIndex. rewrite Ea, Eb, !index_of_of_nat. reflexivity.
      * rewrite copied_other by lia. apply Hdone; lia.
    + intros i Hi Hi'. rewrite copied_other by lia. apply Hrest; lia.
    + apply Forall_app. split; [assumption|].
      assert (4 * (b * w + a) + 4 <= length d)%nat.
      { unfold d. rewrite Hwf. fold w h. nia. }
      repeat constructor; eexists; (split; [reflexivity | fold d; lia]).
  - rewrite copyPixel_outside by assumption. repeat split.
    + assumption.
    + intros x' y' k Hx' Hy' Hk Hlt.
      destruct (Nat.eq_dec (y' * w + x')%nat (y * w + x)%nat) as [E|E].
      * destruct (linear_index_inj w x y x' y' Hx Hx' E) as [-> ->].
        unfold expected. fold w h d. rewrite Hin. apply Hrest; lia.
      * apply Hdone; lia.
    + intros i Hi Hi'. apply Hrest; lia.
    + assumption.
Qed.

Lemma loop_inv_row (c : Canvas) (y n : nat) :
  (n <= w)%nat -> (y < h)%nat ->
  loop_inv imageData src c (y * w) ->
  loop_inv imageData src (fold_left (paint imageData src y) (seq 0 n) c) (y * w + n).
Proof.
  intros Hn Hy Hc. induction n as [|n IH].
  - simpl. now rewrite Nat.add_0_r.
  - rewrite fold_left_seq_S.
    replace (y * w + S n)%nat with (y * w + n + 1)%nat by lia.
    apply loop_inv_step; [lia | assumption | apply IH; lia].
Qed.

Lemma loop_inv_rows (c : Canvas) (m : nat) :
  (m <= h)%nat -> loop_inv imageData src c 0 ->
  loop_inv imageData src
    (fold_left (fun c y => fold_left (paint imageData src y) (seq 0 w) c) (seq 0 m) c)
    (m * w).
Proof.
  intros Hm Hc. induction m as [|m IH].
  - simpl. assumption.
  - rewrite fold_left_seq_S.
    replace (S m * w)%nat with (m * w + w)%nat by lia.
    apply loop_inv_row; [lia | lia | apply IH; lia].
Qed.

Lemma distort_painted : distort imageData (Some curve) rot = Ok (painted imageData src).
Proof.
  unfold distort, painted. simpl. fold w h.
  apply forEach_pure. intros c y Hy%in_seq.
  apply forEach_pure. intros c' x Hx%in_seq. apply pixelStep_paint; lia.
Qed.

Lemma painted_inv : loop_inv imageData src (painted imageData src) (h * w).
Proof. apply loop_inv_rows; [lia | apply loop_inv_init]. Qed.

End Loop.

(** ** What [applyDistortion] draws *)

Section Distortion.

Variables (imageData : ImageData) (curve : CurveData) (rot : num).

Let w := width imageData.
Let h := height imageData.

(** Whether [sourceCoord] throws does not depend on the pixel. *)
Lemma sourceCoord_uniform (x y x' y' : nat) (p : num * num) :
  sourceCoord curve rot w h x y = Ok p ->
  exists p', sourceCoord curve rot w h x' y' = Ok p'.
Proof.
  destruct (lineSegments curve) as [segs|] eqn:Hs.
  - intros _. now apply sourceCoord_total with segs.
  - unfold sourceCoord. rewrite Hs. simpl.
    case_guards;
      try discriminate; eauto.
Qed.

(** Every pixel of the output holds what [expected] says, and every read of
    the source frame was in bounds. *)
Theorem distort_spec :
  wf_image imageData ->
  (forall x y, (x < w)%nat -> (y < h)%nat ->
     exists p, sourceCoord curve rot w h x y = Ok p) ->
  exists c,
    distort imageData (Some curve) rot = Ok c /\
    length (outputData c) = (4 * (w * h))%nat /\
    (forall x y k sx sy, (x < w)%nat -> (y < h)%nat -> (k < 4)%nat ->
       sourceCoord curve rot w h x y = Ok (sx, sy) ->
       outputData c !! (4 * (y * w + x) + k)%nat = Some (expected imageData sx sy k)) /\
    Forall (inBounds imageData) (reads c).
Proof.
  intros Hwf Htot.
  set (src := fun x y =>
    match sourceCoord curve rot w h x y with
    | Ok p => p
    | TypeError => (NaN, NaN)
    end).
  assert (forall x y, (x < w)%nat -> (y < h)%nat ->
            sourceCoord curve rot w h x y = Ok (src x y)) as Hsrc.
  { intros x y Hx Hy. destruct (Htot x y Hx Hy) as [p Hp].
    unfold src. now rewrite Hp. }
  exists (painted imageData src). split.
  { now apply distort_painted. }
  destruct (painted_inv imageData curve rot src Hwf Hsrc)
    as (Hlen & Hdone & _ & Hreads).
  split; [exact Hlen|]. split; [|exact Hreads].
  intros x y k sx sy Hx Hy Hk Hs.
  assert (y * w + x < h * w)%nat as Hlt by nia.
  specialize (Hdone x y k Hx Hy Hk Hlt).
  rewrite Hsrc in Hs by assumption. injection Hs as Hs.
  rewrite Hs in Hdone. exact Hdone.
Qed.

(** With the segment list present the run does not throw. *)
Lemma applyDistortion_total (segs : list LineSegment) :
  wf_image imageData -> lineSegments curve = Some segs ->
  exists out, applyDistortion imageData (Some curve) rot = Ok out.
Proof.
  intros Hwf Hs.
  destruct (distort_spec Hwf) as (c & Hc & _).
  { intros x y _ _. now apply sourceCoord_total with segs. }
  unfold applyDistortion. rewrite Hc. simpl. eauto.
Qed.

(** A buffer that agrees with the frame on every channel of every pixel is
    the frame's buffer. *)
Lemma data_eq_by_pixels (out : list Byte.byte) :
  wf_image imageData ->
  length out = (4 * (w * h))%nat ->
  (forall x y k, (x < w)%nat -> (y < h)%nat -> (k < 4)%nat ->
     out !! (4 * (y * w + x) + k)%nat = data imageData !! (4 * (y * w + x) + k)%nat) ->
  out = data imageData.
Proof.
  intros Hwf Hlen Hpix. apply list_eq. intros i.
  destruct (Nat.lt_ge_cases i (4 * (w * h))) as [Hi|Hi].
  - assert (w <> 0)%nat as Hw by (intros E; rewrite E in Hi; simpl in Hi; lia).
    pose proof (Nat.div_mod_eq i 4) as E4.
    pose proof (Nat.mod_upper_bound i 4 ltac:(lia)) as Hk.
    pose proof (Nat.div_mod_eq (i / 4) w) as Ew.
    pose proof (Nat.mod_upper_bound (i / 4) w Hw) as Hx.
    assert (i / 4 / w < h)%nat as Hy.
    { apply Nat.Div0.div_lt_upper_bound. apply Nat.Div0.div_lt_upper_bound. lia. }
    specialize (Hpix ((i / 4) mod w) (i / 4 / w) (i mod 4) Hx Hy Hk)%nat.
    replace (4 * (i / 4 / w * w + (i / 4) mod w) + i mod 4)%nat with i in Hpix by lia.
    exact Hpix.
  - rewrite !lookup_ge_None_2; [reflexivity | | lia].
    rewrite Hwf. fold w h. lia.
Qed.

(** When every pixel is its own source, the frame is copied. *)
Theorem applyDistortion_identity :
  wf_image imageData ->
  (forall x y, (x < w)%nat -> (y < h)%nat ->
     sourceCoord curve rot w h x y = Ok (of_nat x, of_nat y)) ->
  applyDistortion imageData (Some curve) rot = Ok imageData.
Proof.
  intros Hwf Hid.
  destruct (distort_spec Hwf) as (c & Hc & Hlen & Hpix & _).
  { intros x y Hx Hy. eauto. }
  unfold applyDistortion. rewrite Hc. simpl.
  rewrite (data_eq_by_pixels (outputData c) Hwf Hlen).
  { now destruct imageData. }
  intros x y k Hx Hy Hk.
  rewrite (Hpix x y k _ _ Hx Hy Hk (Hid x y Hx Hy)).
  unfold expected. fold w h.
  assert (inFrame w h (of_nat x) (of_nat y) = true) as -> by (now apply inFrame_of_nat).
  unfold sourceIndex. rewrite !index_of_of_nat.
  assert (4 * (y * w + x) + k < length (data imageData))%nat as Hin.
  { rewrite Hwf. fold w h. nia. }
  apply lookup_lt_is_Some_2 in Hin as [v Hv]. now rewrite Hv.
Qed.

End Distortion.

(** ** Finite and special values *)

Section Finiteness.

Lemma finite_neg (a : num) : is_finite (neg a) = is_finite a.
Proof. now destruct a. Qed.

Lemma finite_add (a b : num) :
  is_finite a = true -> is_finite b = true -> is_finite (add a b) = true.
Proof. now destruct a, b. Qed.

Lemma finite_sub (a b : num) :
  is_finite a = true -> is_finite b = true -> is_finite (sub a b) = true.
Proof. now destruct a, b. Qed.

Lemma finite_mul (a b : num) :
  is_finite a = true -> is_finite b = true -> is_finite (mul a b) = true.
Proof. now destruct a, b. Qed.

Lemma finite_div (a b : num) :
  is_finite a = true -> is_finite b = true -> truthy b = true ->
  is_finite (div a b) = true.
Proof.
  destruct a, b; simpl; try discriminate. intros _ _ H.
  apply negb_true_iff in H. now rewrite H.
Qed.

Lemma eqb_refl_finite (a : num) : is_finite a = true -> eqb a a = true.
Proof. destruct a; simpl; try discriminate. intros _. apply Qeq_bool_refl. Qed.

Lemma eqb_nan (a : num) : is_nan a = true -> eqb a a = false.
Proof. now destruct a. Qed.








End Finiteness.

(** ** The curve normaliser *)

Section Normaliser.

Lemma convertSegment_fields (b : CanvasBounds) (seg : LineSegment) :
  let p := convertSegment b seg in
  yMin p = Num.min (physicalY b (y1 seg)) (physicalY b (y2 seg)) /\
  yMax p = Num.max (physicalY b (y1 seg)) (physicalY b (y2 seg)) /\
  z1 p = div (add (z0 p) (z2 p)) two /\
  ((z0 p = depth b (x1 seg) /\ z2 p = depth b (x2 seg)) \/
   (z0 p = depth b (x2 seg) /\ z2 p = depth b (x1 seg))).
Proof.
  unfold convertSegment, physicalY, depth.
  destruct (le _ _); simpl; auto 10.
Qed.

Lemma depth_finite (b : CanvasBounds) (x : num) :
  is_finite (bounds_x b) = true -> truthy (bounds_x b) = true ->
  is_finite x = true -> is_finite (depth b x) = true.
Proof.
  intros Hb Ht Hx. unfold depth. rewrite finite_neg.
  apply finite_mul; [|reflexivity].
  apply finite_div; auto using finite_sub.
Qed.



Lemma convert_with_segments (c : CurveData) (segs : list LineSegment) :
  lineSegments c = Some segs -> segs <> [] ->
  convertCurveDataToSegments (Some c) = Ok (map (convertSegment (bounds c)) segs).
Proof.
  intros Hs Hne. unfold convertCurveDataToSegments, noCurve. rewrite Hs.
  destruct segs; [contradiction|]. simpl. now rewrite Hs.
Qed.


End Normaliser.

(** ** Claims about the curve normaliser *)

Section NormaliserClaims.

(** C2: an absent [curveData], a [curveData] without [lineSegments] and one
    whose [lineSegments] is empty all normalise to the one-element list
    [{yMin: -0.4, yMax: 0.4, z0: 0, z1: 0, z2: 0}]. *)
Theorem C2_flat_mirror_default :
  let flat := [ {| yMin := Fin (-2 # 5); yMax := Fin (2 # 5);
                   z0 := Fin 0; z1 := Fin 0; z2 := Fin 0 |} ] in
  convertCurveDataToSegments None = Ok flat /\
  (forall b, convertCurveDataToSegments (Some (mkCurve b None)) = Ok flat) /\
  (forall b segs, length segs = 0%nat ->
     convertCurveDataToSegments (Some (mkCurve b (Some segs))) = Ok flat).
Proof.
  repeat split.
  intros b segs Hlen. unfold convertCurveDataToSegments, noCurve. simpl.
  now rewrite Hlen.
Qed.

Lemma C2_flat_mirror_default_witness :
  convertCurveDataToSegments
    (Some (mkCurve (mkBounds (of_Z 400) (of_Z 50) (of_Z 550)) (Some [])))
  = Ok [ {| yMin := Fin (-2 # 5); yMax := Fin (2 # 5);
            z0 := Fin 0; z1 := Fin 0; z2 := Fin 0 |} ].
Proof.
  destruct C2_flat_mirror_default as (_ & _ & H).
  apply (H (mkBounds (of_Z 400) (of_Z 50) (of_Z 550)) []). reflexivity.
Defined.

(** C3: the scenario normalises to the single segment
    [{yMin: -2, yMax: 2, z0: 0, z1: -0.125, z2: -0.25}]; the row map sends 50
    to -2 and 550 to 2, and the depth map sends 400 to 0 and 300 to
    -((400 - 300) / 400) * 1 = -0.25. *)
Theorem C3_scenario_segment :
  convertCurveDataToSegments (Some scenarioCurve)
  = Ok [ {| yMin := Fin (-2); yMax := Fin 2;
            z0 := Fin 0; z1 := Fin (-1 # 8); z2 := Fin (-1 # 4) |} ] /\
  physicalY scenarioBounds (of_Z 50) = Fin (-2) /\
  physicalY scenarioBounds (of_Z 550) = Fin 2 /\
  depth scenarioBounds (of_Z 400) = Fin 0 /\
  depth scenarioBounds (of_Z 300) = Fin (-1 # 4) /\
  depth scenarioBounds (of_Z 300)
  = neg (mul (div (sub (of_Z 400) (of_Z 300)) (of_Z 400)) (of_Z 1)).
Proof. repeat split; vm_compute; reflexivity. Qed.

(** C8, as stated, fails: with the finite bounds [{x: 0, yTop: 0, yBottom: 1}]
    the depth of [x = 0] is [0 / 0], so [z0], [z1] and [z2] are NaN and
    [z1 == (z0 + z2) / 2] is false. *)
Lemma C8_midpoint_counterexample :
  is_finite (bounds_x (bounds zeroWidthCurve)) = true /\
  is_finite (yTop (bounds zeroWidthCurve)) = true /\
  is_finite (yBottom (bounds zeroWidthCurve)) = true /\
  convertCurveDataToSegments (Some zeroWidthCurve)
  = Ok [ {| yMin := Fin (-2); yMax := Fin 2; z0 := NaN; z1 := NaN; z2 := NaN |} ] /\
  midpoint {| yMin := Fin (-2); yMax := Fin 2; z0 := NaN; z1 := NaN; z2 := NaN |} = false.
Proof. repeat split. Qed.

Lemma eqb_self (a : num) : eqb a a = negb (is_nan a).
Proof. destruct a as [q| | |]; try reflexivity. simpl. apply Qeq_bool_iff. reflexivity. Qed.

Lemma nan_div_two (a : num) : is_nan (div a two) = is_nan a.
Proof. destruct a; reflexivity. Qed.

Lemma nan_add_finite (a c : num) :
  is_finite a = true -> is_finite c = true -> is_nan (add a c) = false.
Proof. destruct a, c; try discriminate; reflexivity. Qed.

(** C8, amended: for a curve with at least one segment, every segment the
    normaliser returns has [z1] computed as [(z0 + z2) / 2], and the
    comparison [z1 == (z0 + z2) / 2] holds exactly when [z0 + z2] is not NaN;
    it holds whenever [z0] and [z2] are finite. *)
Theorem C8_midpoint_invariant (c : CurveData) (segs : list LineSegment) :
  lineSegments c = Some segs ->
  (1 <= length segs)%nat ->
  exists out,
    convertCurveDataToSegments (Some c) = Ok out /\
    length out = length segs /\
    Forall (fun p =>
              z1 p = div (add (z0 p) (z2 p)) two /\
              midpoint p = negb (is_nan (add (z0 p) (z2 p))) /\
              (is_finite (z0 p) = true -> is_finite (z2 p) = true -> midpoint p = true)) out.
Proof.
  intros Hs Hlen.
  exists (map (convertSegment (bounds c)) segs).
  split; [|split].
  - apply convert_with_segments; [assumption|].
    intros ->. simpl in Hlen. lia.
  - apply length_map.
  - apply Forall_map, Forall_forall. intros s _. simpl.
    destruct (convertSegment_fields (bounds c) s) as (_ & _ & Hz1 & _).
    assert (midpoint (convertSegment (bounds c) s)
            = negb (is_nan (add (z0 (convertSegment (bounds c) s))
                                (z2 (convertSegment (bounds c) s))))) as Hm.
    { unfold midpoint. rewrite <- Hz1, eqb_self, Hz1. now rewrite nan_div_two. }
    split; [exact Hz1|]. split; [exact Hm|].
    intros F0 F2. rewrite Hm. now rewrite nan_add_finite.
Qed.

Lemma C8_midpoint_invariant_witness :
  exists out,
    convertCurveDataToSegments (Some scenarioCurve) = Ok out /\
    length out = 1%nat /\
    Forall (fun p =>
              z1 p = div (add (z0 p) (z2 p)) two /\
              midpoint p = negb (is_nan (add (z0 p) (z2 p))) /\
              (is_finite (z0 p) = true -> is_finite (z2 p) = true -> midpoint p = true)) out.
Proof.
  apply (C8_midpoint_invariant scenarioCurve [scenarioSegment]).
  - reflexivity.
  - simpl. lia.
Defined.

End NormaliserClaims.

(** ** Claims about the displacement mapper *)

Section MapperClaims.

(** C1: with an empty [lineSegments] the frame is drawn as it is, for every
    frame and every rotation: every channel of every pixel is the input's. *)
Theorem C1_empty_curve_identity (frame : ImageData) (b : CanvasBounds) (r : num) :
  render frame (Some {| bounds := b; lineSegments := Some [] |}) r = Ok frame /\
  forall out, render frame (Some {| bounds := b; lineSegments := Some [] |}) r = Ok out ->
    width out = width frame /\ height out = height frame /\
    forall i, data out !! i = data frame !! i.
Proof.
  assert (render frame (Some {| bounds := b; lineSegments := Some [] |}) r = Ok frame) as H
    by reflexivity.
  split; [exact H|].
  intros out Hout. rewrite H in Hout. injection Hout as <-. auto.
Qed.



(** C6: when the floored source coordinate of an output pixel is outside
    the frame, the four channels of that pixel keep the value the fresh
    output buffer has (zero); and every read of the source frame, for any
    pixel, is at an index of its buffer. *)
Theorem C6_boundary_containment (frame : ImageData) (curve : CurveData) (rot : num)
    (x y : nat) (sourceX sourceY : num) :
  wf_image frame ->
  (x < width frame)%nat -> (y < height frame)%nat ->
  sourceCoord curve rot (width frame) (height frame) x y = Ok (sourceX, sourceY) ->
  inFrame (width frame) (height frame) sourceX sourceY = false ->
  exists c,
    distort frame (Some curve) rot = Ok c /\
    applyDistortion frame (Some curve) rot
    = Ok {| width := width frame; height := height frame; data := outputData c |} /\
    (forall k, (k < 4)%nat ->
       outputData c !! (4 * (y * width frame + x) + k)%nat = Some Byte.x00 /\
       data (createImageData (width frame) (height frame))
         !! (4 * (y * width frame + x) + k)%nat = Some Byte.x00) /\
    Forall (fun r => exists j, r = of_nat j /\ (j < length (data frame))%nat) (reads c).
Proof.
  intros Hwf Hx Hy Hs Hout.
  destruct (distort_spec frame curve rot Hwf) as (c & Hc & Hlen & Hpix & Hreads).
  { intros x' y' _ _. eapply sourceCoord_uniform. exact Hs. }
  exists c. split; [exact Hc|]. split.
  { unfold applyDistortion. now rewrite Hc. }
  split; [|exact Hreads].
  intros k Hk. split.
  - rewrite (Hpix x y k _ _ Hx Hy Hk Hs). unfold expected. now rewrite Hout.
  - simpl. apply lookup_replicate_2. nia.
Qed.

Lemma C6_boundary_containment_witness :
  exists c,
    distort frame2x2 (Some scenarioCurve) (of_Z 0) = Ok c /\
    applyDistortion frame2x2 (Some scenarioCurve) (of_Z 0)
    = Ok {| width := 2; height := 2; data := outputData c |} /\
    (forall k, (k < 4)%nat ->
       outputData c !! (4 * (1 * 2 + 0) + k)%nat = Some Byte.x00 /\
       data (createImageData 2 2) !! (4 * (1 * 2 + 0) + k)%nat = Some Byte.x00) /\
    Forall (fun r => exists j, r = of_nat j /\ (j < length (data frame2x2))%nat) (reads c).
Proof.
  apply (C6_boundary_containment frame2x2 scenarioCurve (of_Z 0) 0 1 (of_Z (-1)) (of_Z 1)).
  - reflexivity.
  - simpl. lia.
  - simpl. lia.
  - vm_compute. reflexivity.
  - vm_compute. reflexivity.
Defined.

End MapperClaims.

(** ** The segment scan and the interpolation *)

Section Scan.

Lemma fin_zero (q : Q) : q == 0 -> fin q = zero.
Proof.
  intros H. unfold fin, zero, of_Z. apply (f_equal Fin).
  change (inject_Z 0) with (Qred 0). now apply Qred_complete.
Qed.

Lemma truthy_fin (q : Q) : truthy (fin q) = negb (Qeq_bool q 0).
Proof. unfold fin, truthy. now rewrite Qred_correct. Qed.

Lemma sub_Fin (p q : Q) : sub (Fin p) (Fin q) = fin (p - q).
Proof. reflexivity. Qed.

Lemma div_one_sub (a b : num) : div (sub a b) one = sub a b.
Proof.
  destruct a as [p| | |], b as [q| | |]; try reflexivity.
  rewrite sub_Fin. unfold fin, div, one, of_Z.
  change (Qeq_bool (inject_Z 1) 0) with false. cbv iota.
  unfold fin. apply (f_equal Fin), Qred_complete.
  rewrite Qred_correct. field.
Qed.

Lemma sub_falsy (a b : num) : eqb a b = true -> truthy (sub a b) = false.
Proof.
  destruct a as [p| | |], b as [q| | |]; intros H; try discriminate H;
    try reflexivity.
  rewrite sub_Fin, truthy_fin.
  apply Qeq_bool_iff in H. apply negb_false_iff, Qeq_bool_iff.
  rewrite H. ring.
Qed.

Lemma sub_truthy (a b : num) :
  eqb a b = false -> is_nan a = false -> is_nan b = false -> truthy (sub a b) = true.
Proof.
  destruct a as [p| | |], b as [q| | |]; intros H Ha Hb;
    try discriminate; try reflexivity.
  rewrite sub_Fin, truthy_fin.
  apply negb_true_iff. destruct (Qeq_bool (p - q) 0) eqn:E; [|reflexivity].
  apply Qeq_bool_iff in E. apply Qeq_bool_neq in H. exfalso. apply H. lra.
Qed.

Lemma contains_not_nan (seg : LineSegment) (curveY : num) :
  contains seg curveY = true ->
  is_nan (y1 seg) = false /\ is_nan (y2 seg) = false /\ is_nan curveY = false.
Proof.
  unfold contains, ge.
  destruct (y1 seg), (y2 seg), curveY; simpl; intros H;
    repeat match type of H with context [if ?b then _ else _] => destruct b end;
    simpl in H; try discriminate; auto.
Qed.

Lemma contains_degenerate (seg : LineSegment) (curveY : num) :
  contains seg curveY = true -> eqb (y2 seg) (y1 seg) = true ->
  is_finite (y1 seg) = true -> sub curveY (y1 seg) = zero.
Proof.
  unfold contains, ge.
  destruct (y1 seg) as [p| | |], (y2 seg) as [q| | |], curveY as [c| | |];
    intros H E F; try discriminate.
  - rewrite sub_Fin. apply fin_zero.
    apply Qeq_bool_iff in E. unfold Num.min, Num.max, le in H.
    destruct (Qle_bool p q) eqn:L; apply andb_true_iff in H as [H1 H2];
      apply Qle_bool_iff in H1, H2; lra.
  - unfold Num.min, Num.max, le in H. destruct (Qle_bool p q); discriminate.
  - unfold Num.min, Num.max, le in H. destruct (Qle_bool p q); discriminate.
  - unfold Num.min, Num.max, le in H. destruct (Qle_bool p q); discriminate.
Qed.

Lemma scanSegments_first (pre post : list LineSegment) (seg : LineSegment)
    (curveY curveX : num) :
  Forall (fun s => contains s curveY = false) pre ->
  contains seg curveY = true ->
  scanSegments (pre ++ seg :: post) curveY curveX = interpolate seg curveY.
Proof.
  intros Hpre Hseg. induction Hpre as [|s pre Hs _ IH]; simpl.
  - now rewrite Hseg.
  - now rewrite Hs.
Qed.

Lemma scanSegments_none (segs : list LineSegment) (curveY curveX : num) :
  Forall (fun s => contains s curveY = false) segs ->
  scanSegments segs curveY curveX = curveX.
Proof.
  intros H. induction H as [|s segs Hs _ IH]; simpl; [reflexivity|].
  now rewrite Hs.
Qed.

(** A centreline that is finite and not zero has offset zero from itself. *)
Lemma displacement_centreline (b : CanvasBounds) (segs : list LineSegment)
    (curveY : num) (extent : nat) (bx : Q) :
  val (bounds_x b) bx -> ~ bx == 0 ->
  val (scanSegments segs curveY (bounds_x b)) bx ->
  displacement b segs curveY extent = zero.
Proof.
  intros Hb Hnz Hscan. unfold displacement.
  assert (val (mul (div (sub (bounds_x b) (scanSegments segs curveY (bounds_x b)))
                        (bounds_x b)) (of_nat extent))
              ((bx - bx) / bx * inject_Z (Z.of_nat extent))) as (p & -> & Hp).
  { apply val_mul; [apply val_div|]; auto using val_sub, val_of_nat. }
  change (mul (Fin p) half) with (fin (p * (1 # 2))).
  apply fin_zero. rewrite Hp. field. assumption.
Qed.

End Scan.

(** ** Claims about the segment scan *)

Section ScanClaims.

Lemma floor_sub_zero (x : nat) : floor (sub (of_nat x) zero) = of_nat x.
Proof.
  rewrite (val_floor _ (inject_Z (Z.of_nat x) - 0)).
  - unfold of_nat. apply f_equal. rewrite <- (Qfloor_Z (Z.of_nat x)) at 2.
    apply Qfloor_comp. ring.
  - apply val_sub; [apply val_of_nat | apply val_Fin].
Qed.

Lemma floor_add_zero (x : nat) : floor (add (of_nat x) zero) = of_nat x.
Proof.
  rewrite (val_floor _ (inject_Z (Z.of_nat x) + 0)).
  - unfold of_nat. apply f_equal. rewrite <- (Qfloor_Z (Z.of_nat x)) at 2.
    apply Qfloor_comp. ring.
  - apply val_add; [apply val_of_nat | apply val_Fin].
Qed.

Lemma finite_val (a : num) : is_finite a = true -> exists q, val a q.
Proof. destruct a as [q| | |]; try discriminate. intros _. exists q. apply val_Fin. Qed.

(** C4, as stated, fails in its last part: with [bounds.x = 0] no segment
    contains the row of the pixel, [curveX] is [bounds.x], and the offset
    [(bounds.x - curveX) / bounds.x] is [0 / 0]: the displacement is NaN, not
    zero, and the pixel is not copied. *)
Lemma C4_zero_displacement_counterexample :
  Forall (fun s => contains s (of_Z 0) = false) [ mkSeg (of_Z 5) (of_Z 100) (of_Z 7) (of_Z 200) ] /\
  scanSegments [ mkSeg (of_Z 5) (of_Z 100) (of_Z 7) (of_Z 200) ] (of_Z 0) (of_Z 0) = of_Z 0 /\
  displacement (bounds offCurve) [ mkSeg (of_Z 5) (of_Z 100) (of_Z 7) (of_Z 200) ] (of_Z 0) 1 = NaN /\
  sourceCoord offCurve (of_Z 0) 1 1 0 0 = Ok (NaN, of_Z 0) /\
  applyDistortion frame1x1 (Some offCurve) (of_Z 0)
  = Ok {| width := 1; height := 1; data := px Byte.x00 Byte.x00 Byte.x00 Byte.x00 |}.
Proof. repeat split; repeat constructor. Qed.

(** C4, amended: the segment interpolated is the first, in the order of
    [lineSegments], whose interval contains [curveY], whatever follows it;
    when none contains it [curveX] is [bounds.x], and then, if [bounds.x] is
    finite and not zero, the displacement is zero and the pixel is its own
    source. *)
Theorem C4_first_match (b : CanvasBounds) (segs : list LineSegment) (curveY : num)
    (extent : nat) :
  (forall pre seg post,
     segs = pre ++ seg :: post ->
     Forall (fun s => contains s curveY = false) pre ->
     contains seg curveY = true ->
     scanSegments segs curveY (bounds_x b) = interpolate seg curveY /\
     forall post', scanSegments (pre ++ seg :: post') curveY (bounds_x b)
                   = scanSegments segs curveY (bounds_x b)) /\
  (Forall (fun s => contains s curveY = false) segs ->
     scanSegments segs curveY (bounds_x b) = bounds_x b /\
     (is_finite (bounds_x b) = true -> eqb (bounds_x b) zero = false ->
        displacement b segs curveY extent = zero /\
        forall x, floor (sub (of_nat x) (displacement b segs curveY extent)) = of_nat x /\
                  floor (add (of_nat x) (displacement b segs curveY extent)) = of_nat x)).
Proof.
  split.
  - intros pre seg post -> Hpre Hseg. split.
    + now apply scanSegments_first.
    + intros post'. now rewrite !scanSegments_first.
  - intros Hnone. split; [now apply scanSegments_none|].
    intros Hfin Hnz.
    destruct (finite_val _ Hfin) as [bx Hbx].
    assert (displacement b segs curveY extent = zero) as ->.
    { apply displacement_centreline with bx.
      - assumption.
      - destruct Hbx as (p & E & Hp). rewrite E in Hnz.
        apply Qeq_bool_neq in Hnz. now rewrite <- Hp.
      - now rewrite scanSegments_none. }
    split; [reflexivity|]. intros x.
    split; [apply floor_sub_zero | apply floor_add_zero].
Qed.

Lemma C4_first_match_witness :
  let first := mkSeg (of_Z 400) (of_Z 50) (of_Z 300) (of_Z 550) in
  let second := mkSeg (of_Z 400) (of_Z 50) (of_Z 500) (of_Z 550) in
  (scanSegments [first; second] (of_Z 300) (of_Z 400) = interpolate first (of_Z 300) /\
   forall post', scanSegments ([] ++ first :: post') (of_Z 300) (of_Z 400)
                 = scanSegments [first; second] (of_Z 300) (of_Z 400)) /\
  (scanSegments [first; second] (of_Z 600) (of_Z 400) = of_Z 400 /\
   displacement scenarioBounds [first; second] (of_Z 600) 640 = zero).
Proof.
  intros first second. split.
  - destruct (C4_first_match scenarioBounds [first; second] (of_Z 300) 640) as [H _].
    apply (H [] first [second]); [reflexivity | constructor | reflexivity].
  - destruct (C4_first_match scenarioBounds [first; second] (of_Z 600) 640) as [_ H].
    destruct H as [H1 H2]; [repeat constructor|].
    split; [exact H1|]. apply H2; reflexivity.
Defined.

Lemma contains_special (seg : LineSegment) (curveY : num) :
  contains seg curveY = true -> eqb (y2 seg) (y1 seg) = true ->
  is_finite (y1 seg) = false -> sub curveY (y1 seg) = NaN.
Proof.
  unfold contains, ge.
  destruct (y1 seg) as [p| | |], (y2 seg) as [q| | |], curveY as [c| | |];
    intros H E F; try discriminate; reflexivity.
Qed.

(** C5, as stated, fails at a row that is not finite: the segment
    [{x1: 400, y1: Infinity, x2: 300, y2: Infinity}] has [y2 == y1] and
    contains the row [Infinity], the denominator is replaced by 1, and
    [t = Infinity - Infinity] is NaN, as is [curveX].  With the bounds
    [{x: 400, yTop: 0, yBottom: Infinity}] that row is the row of the second
    line of a frame of two lines, whose pixel has the source column NaN. *)
Lemma C5_infinite_row_counterexample :
  eqb (y2 infiniteRow) (y1 infiniteRow) = true /\
  contains infiniteRow PInf = true /\
  or_else (sub (y2 infiniteRow) (y1 infiniteRow)) one = one /\
  interpolation infiniteRow PInf = NaN /\
  scanSegments [infiniteRow] PInf (of_Z 400) = NaN /\
  add (of_Z 0) (mul (div (of_nat 1) (of_nat 2)) (sub PInf (of_Z 0))) = PInf /\
  sourceCoord {| bounds := mkBounds (of_Z 400) (of_Z 0) PInf;
                 lineSegments := Some [infiniteRow] |} (of_Z 0) 1 2 0 1
  = Ok (NaN, of_nat 1).
Proof. repeat split. Qed.

(** C5, amended: when the first segment that contains [curveY] has
    [y2 == y1] the denominator is replaced by 1: [t] is [curveY - y1] and the
    scan returns [x1 + (curveY - y1) * (x2 - x1)].  For a finite [y1] this
    [t] is 0, not NaN; for [y1 == y2] infinite it is NaN.  With [y2 != y1]
    the denominator is [y2 - y1] and the scan returns
    [x1 + ((curveY - y1) / (y2 - y1)) * (x2 - x1)]. *)
Theorem C5_degenerate_segment (pre post : list LineSegment) (seg : LineSegment)
    (curveY curveX : num) :
  Forall (fun s => contains s curveY = false) pre ->
  contains seg curveY = true ->
  (eqb (y2 seg) (y1 seg) = true ->
     or_else (sub (y2 seg) (y1 seg)) one = one /\
     interpolation seg curveY = sub curveY (y1 seg) /\
     scanSegments (pre ++ seg :: post) curveY curveX
     = add (x1 seg) (mul (sub curveY (y1 seg)) (sub (x2 seg) (x1 seg))) /\
     (is_finite (y1 seg) = true ->
        interpolation seg curveY = zero /\
        scanSegments (pre ++ seg :: post) curveY curveX
        = add (x1 seg) (mul zero (sub (x2 seg) (x1 seg)))) /\
     (is_finite (y1 seg) = false -> interpolation seg curveY = NaN)) /\
  (eqb (y2 seg) (y1 seg) = false ->
     or_else (sub (y2 seg) (y1 seg)) one = sub (y2 seg) (y1 seg) /\
     interpolation seg curveY = div (sub curveY (y1 seg)) (sub (y2 seg) (y1 seg)) /\
     scanSegments (pre ++ seg :: post) curveY curveX
     = add (x1 seg)
           (mul (div (sub curveY (y1 seg)) (sub (y2 seg) (y1 seg)))
                (sub (x2 seg) (x1 seg)))).
Proof.
  intros Hpre Hin.
  rewrite (scanSegments_first pre post seg curveY curveX Hpre Hin).
  split.
  - intros Heq.
    assert (or_else (sub (y2 seg) (y1 seg)) one = one) as Hden.
    { unfold or_else. now rewrite sub_falsy. }
    assert (interpolation seg curveY = sub curveY (y1 seg)) as Ht.
    { unfold interpolation. rewrite Hden. apply div_one_sub. }
    split; [exact Hden|]. split; [exact Ht|].
    split; [unfold interpolate; now rewrite Ht|].
    split.
    + intros Hfin.
      pose proof (contains_degenerate seg curveY Hin Heq Hfin) as Hz.
      split; [now rewrite Ht|]. unfold interpolate. now rewrite Ht, Hz.
    + intros Hinf. rewrite Ht. now apply contains_special.
  - intros Hne.
    destruct (contains_not_nan seg curveY Hin) as (N1 & N2 & _).
    assert (or_else (sub (y2 seg) (y1 seg)) one = sub (y2 seg) (y1 seg)) as Hden.
    { unfold or_else. now rewrite sub_truthy. }
    split; [exact Hden|].
    unfold interpolate, interpolation. rewrite Hden. split; reflexivity.
Qed.

Lemma C5_degenerate_segment_witness :
  let other := mkSeg (of_Z 5) (of_Z 100) (of_Z 7) (of_Z 200) in
  let flat := mkSeg (of_Z 400) (of_Z 50) (of_Z 300) (of_Z 50) in
  interpolation flat (of_Z 50) = sub (of_Z 50) (of_Z 50) /\
  interpolation flat (of_Z 50) = zero /\
  scanSegments ([other] ++ flat :: [scenarioSegment]) (of_Z 50) (of_Z 400) = of_Z 400 /\
  div (sub (of_Z 50) (y1 flat)) (sub (y2 flat) (y1 flat)) = NaN.
Proof.
  intros other flat.
  destruct (C5_degenerate_segment [other] [scenarioSegment] flat (of_Z 50) (of_Z 400))
    as [H _]; [repeat constructor | reflexivity |].
  destruct H as (_ & Ht & Hx & Hz & _); [reflexivity|].
  split; [exact Ht|].
  split; [apply Hz; reflexivity|].
  split; [rewrite Hx; reflexivity | reflexivity].
Defined.

End ScanClaims.

(** ** The straight centreline *)

Section Centreline.

Variables (bx yt yb : Q).

Hypothesis Hy : (yt < yb)%Q.
Hypothesis Hx : (0 < bx)%Q.

Lemma centreline_interpolate (curveY : num) (cy : Q) :
  val curveY cy ->
  val (interpolate (mkSeg (Fin bx) (Fin yt) (Fin bx) (Fin yb)) curveY) bx.
Proof.
  intros Hc. unfold interpolate, interpolation. simpl x1; simpl x2; simpl y1; simpl y2.
  assert (val (sub (Fin yb) (Fin yt)) (yb - yt)) as Hd
    by (apply val_sub; apply val_Fin).
  assert (~ yb - yt == 0) as Hnz by lra.
  unfold or_else. rewrite (val_truthy _ _ Hd Hnz).
  apply val_eq with (bx + (cy - yt) / (yb - yt) * (bx - bx))%Q.
  - apply val_add; [apply val_Fin|].
    apply val_mul; [|apply val_sub; apply val_Fin].
    apply val_div; [|assumption|assumption].
    apply val_sub; [assumption | apply val_Fin].
  - field. assumption.
Qed.

Lemma centreline_scan (curveY : num) (cy : Q) :
  val curveY cy ->
  val (scanSegments [ mkSeg (Fin bx) (Fin yt) (Fin bx) (Fin yb) ] curveY (Fin bx)) bx.
Proof.
  intros Hc. simpl.
  destruct (contains _ curveY).
  - now apply centreline_interpolate with cy.
  - apply val_Fin.
Qed.

Lemma centreline_displacement (curveY : num) (cy : Q) (extent : nat) :
  val curveY cy ->
  displacement (bounds (centrelineCurve bx yt yb))
               [ mkSeg (Fin bx) (Fin yt) (Fin bx) (Fin yb) ] curveY extent = zero.
Proof.
  intros Hc. apply displacement_centreline with bx.
  - apply val_Fin.
  - lra.
  - now apply centreline_scan with cy.
Qed.

(** At rotation 0 every pixel of a frame with rows is its own source. *)
Lemma centreline_source (w h x y : nat) :
  (0 < h)%nat ->
  sourceCoord (centrelineCurve bx yt yb) (of_Z 0) w h x y = Ok (of_nat x, of_nat y).
Proof.
  intros Hh. unfold sourceCoord.
  change (eqb (of_Z 0) (of_Z 0)) with true. cbv iota.
  change (lineSegments (centrelineCurve bx yt yb))
    with (Some [ mkSeg (Fin bx) (Fin yt) (Fin bx) (Fin yb) ]).
  cbv beta iota delta [deref bind].
  rewrite centreline_displacement with
    (cy := (yt + inject_Z (Z.of_nat y) / inject_Z (Z.of_nat h) * (yb - yt))%Q).
  - now rewrite floor_sub_zero.
  - apply val_add; [apply val_Fin|].
    apply val_mul; [|apply val_sub; apply val_Fin].
    apply val_div; [apply val_of_nat | apply val_of_nat|].
    change 0%Q with (inject_Z 0). rewrite inject_Z_injective. lia.
Qed.

End Centreline.

Section CentrelineClaim.

(** C7, as stated, fails for bounds that are not finite: with the bounds
    [{x: 400, yTop: 0, yBottom: Infinity}] and the segment
    [{x1: 400, y1: 0, x2: 400, y2: Infinity}] the conditions of the claim hold
    ([yBottom > yTop], [bounds.x > 0]), every line but the first has
    [curveY = Infinity], [t = Infinity / Infinity] and the displacement are
    NaN, and the pixel is left black: the frame drawn is not the input. *)
Lemma C7_infinite_bounds_counterexample :
  gt (yBottom (bounds infiniteCentreline)) (yTop (bounds infiniteCentreline)) = true /\
  gt (bounds_x (bounds infiniteCentreline)) zero = true /\
  lineSegments infiniteCentreline
  = Some [ mkSeg (bounds_x (bounds infiniteCentreline)) (yTop (bounds infiniteCentreline))
                 (bounds_x (bounds infiniteCentreline)) (yBottom (bounds infiniteCentreline)) ] /\
  displacement (bounds infiniteCentreline)
    [ mkSeg (of_Z 400) (of_Z 0) (of_Z 400) PInf ]
    (add (of_Z 0) (mul (div (of_nat 1) (of_nat 480)) (sub PInf (of_Z 0)))) 640 = NaN /\
  sourceCoord infiniteCentreline (of_Z 0) 640 480 0 1 = Ok (NaN, of_nat 1) /\
  exists out,
    applyDistortion frame640x480 (Some infiniteCentreline) (of_Z 0) = Ok out /\
    data out !! (4 * (1 * 640 + 0) + 0)%nat = Some Byte.x00 /\
    data frame640x480 !! (4 * (1 * 640 + 0) + 0)%nat = Some Byte.x7f.
Proof.
  split; [reflexivity|]. split; [reflexivity|]. split; [reflexivity|].
  split; [reflexivity|]. split; [reflexivity|].
  assert (wf_image frame640x480) as Hwf by apply length_replicate.
  destruct (distort_spec frame640x480 infiniteCentreline (of_Z 0) Hwf)
    as (c & Hc & _ & Hpix & _).
  { intros x y _ _.
    apply sourceCoord_total with [ mkSeg (of_Z 400) (of_Z 0) (of_Z 400) PInf ].
    reflexivity. }
  eexists. split; [unfold applyDistortion; rewrite Hc; reflexivity|].
  cbn [data]. split.
  - assert (sourceCoord infiniteCentreline (of_Z 0) (width frame640x480)
              (height frame640x480) 0 1 = Ok (NaN, of_nat 1)) as Hsrc by reflexivity.
    assert (0 < width frame640x480)%nat as Hx by (cbn [width frame640x480]; lia).
    assert (1 < height frame640x480)%nat as Hy by (cbn [height frame640x480]; lia).
    assert (0 < 4)%nat as Hk by lia.
    exact (Hpix 0%nat 1%nat 0%nat NaN (of_nat 1) Hx Hy Hk Hsrc).
  - apply lookup_replicate_2. lia.
Qed.

(** C7, amended: on a 640 by 480 frame, the curve of one segment down the
    centreline, from [yTop] to [yBottom], with finite bounds,
    [yBottom > yTop] and [bounds.x > 0], has displacement zero at every pixel
    at rotation 0; each pixel is its own source, and the frame drawn is the
    input frame. *)
Theorem C7_straight_centreline_copy (frame : ImageData) (bx yt yb : Q) :
  wf_image frame ->
  width frame = 640%nat -> height frame = 480%nat ->
  (yt < yb)%Q -> (0 < bx)%Q ->
  (forall x y, (x < 640)%nat -> (y < 480)%nat ->
     displacement (bounds (centrelineCurve bx yt yb))
       [ mkSeg (Fin bx) (Fin yt) (Fin bx) (Fin yb) ]
       (add (Fin yt) (mul (div (of_nat y) (of_nat 480)) (sub (Fin yb) (Fin yt)))) 640
     = zero /\
     sourceCoord (centrelineCurve bx yt yb) (of_Z 0) 640 480 x y
     = Ok (of_nat x, of_nat y)) /\
  applyDistortion frame (Some (centrelineCurve bx yt yb)) (of_Z 0) = Ok frame /\
  render frame (Some (centrelineCurve bx yt yb)) (of_Z 0) = Ok frame.
Proof.
  intros Hwf Hw Hh Hy Hx.
  assert (applyDistortion frame (Some (centrelineCurve bx yt yb)) (of_Z 0) = Ok frame) as Hcopy.
  { apply applyDistortion_identity; [assumption|].
    intros x y _ _. apply centreline_source; [assumption | assumption | lia]. }
  split; [|split; [exact Hcopy | exact Hcopy]].
  intros x y _ _. split.
  - apply centreline_displacement with
      (cy := (yt + inject_Z (Z.of_nat y) / inject_Z (Z.of_nat 480) * (yb - yt))%Q);
      try assumption.
    apply val_add; [apply val_Fin|].
    apply val_mul; [|apply val_sub; apply val_Fin].
    apply val_div; [apply val_of_nat | apply val_of_nat | discriminate].
  - apply centreline_source; [assumption | assumption | lia].
Qed.

Lemma C7_straight_centreline_copy_witness :
  applyDistortion frame640x480 (Some (centrelineCurve 400 50 550)) (of_Z 0)
  = Ok frame640x480.
Proof.
  assert (wf_image frame640x480) as Hwf by apply length_replicate.
  exact (proj1 (proj2 (C7_straight_centreline_copy frame640x480 400 50 550
                         Hwf eq_refl eq_refl eq_refl eq_refl))).
Defined.

End CentrelineClaim.

(** ** No exception *)

Section Totality.

(** With the segment list present the two loops run to their end, whatever
    the frame. *)
Lemma distort_total (frame : ImageData) (curve : CurveData) (rot : num)
    (segs : list LineSegment) :
  lineSegments curve = Some segs ->
  exists c, distort frame (Some curve) rot = Ok c.
Proof.
  intros Hs.
  set (src := fun x y =>
    match sourceCoord curve rot (width frame) (height frame) x y with
    | Ok p => p
    | TypeError => (NaN, NaN)
    end).
  exists (painted frame src). apply distort_painted.
  intros x y _ _. unfold src.
  destruct (sourceCoord_total curve rot (width frame) (height frame) segs x y Hs) as [p ->].
  reflexivity.
Qed.


(** Called on an empty segment list, [applyDistortion] copies the frame
    when [bounds.x] is finite and not zero, at every rotation. *)
Lemma applyDistortion_no_segments (frame : ImageData) (b : CanvasBounds) (rot : num) :
  wf_image frame ->
  is_finite (bounds_x b) = true -> eqb (bounds_x b) zero = false ->
  applyDistortion frame (Some {| bounds := b; lineSegments := Some [] |}) rot = Ok frame.
Proof.
  intros Hwf Hfin Hnz. apply applyDistortion_identity; [assumption|].
  intros x y _ _.
  assert (forall curveY extent, displacement b [] curveY extent = zero) as Hd.
  { intros curveY extent.
    destruct (finite_val _ Hfin) as [bx Hbx].
    apply displacement_centreline with bx; [assumption | | exact Hbx].
    destruct Hbx as (p & E & Hp). rewrite E in Hnz.
    apply Qeq_bool_neq in Hnz. now rewrite <- Hp. }
  unfold sourceCoord. cbn [lineSegments bounds deref bind].
  case_guards;
    rewrite ?Hd, ?floor_sub_zero, ?floor_add_zero; reflexivity.
Qed.

(** With [bounds.x = 0] it draws nothing: every displacement is NaN. *)
Example applyDistortion_no_segments_zero_width :
  applyDistortion frame1x1
    (Some {| bounds := mkBounds (of_Z 0) (of_Z 0) (of_Z 10); lineSegments := Some [] |})
    (of_Z 0)
  = Ok {| width := 1; height := 1; data := px Byte.x00 Byte.x00 Byte.x00 Byte.x00 |}.
Proof. reflexivity. Qed.

(** Called on an absent curve, [applyDistortion] itself throws: it is the
    guard of [render] that keeps it from being called so. *)
Lemma applyDistortion_no_curve (frame : ImageData) (rot : num) :
  applyDistortion frame None rot = TypeError.
Proof. reflexivity. Qed.





End Totality.

(** ** The untyped component on the data model *)

Section Refinement.

Lemma forEach_ext {A S : Type} (f g : S -> A -> result S) (l : list A) (s : S) :
  (forall s a, In a l -> f s a = g s a) -> forEach f l s = forEach g l s.
Proof.
  revert s. induction l as [|a l IH]; intros s H; simpl; [reflexivity|].
  rewrite H by (now left). destruct (g s a) as [s1|]; simpl; [|reflexivity].
  apply IH. intros s' a' Ha'. apply H. now right.
Qed.



Lemma scanSegments_objects (segs : list LineSegment) (curveY curveX : num) :
  Untyped.scanSegments (map Some segs) curveY curveX
  = Ok (scanSegments segs curveY curveX).
Proof.
  induction segs as [|s segs IH]; simpl; [reflexivity|].
  destruct (contains s curveY); [reflexivity | exact IH].
Qed.

Lemma sourceCoord_asObject (c : CurveData) (rot : num) (w h x y : nat) :
  Untyped.sourceCoord (bounds c) (Untyped.obj_lineSegments (asObject c)) rot w h x y
  = sourceCoord c rot w h x y.
Proof.
  unfold Untyped.sourceCoord, sourceCoord, Untyped.displacement, displacement.
  cbn [asObject Untyped.obj_lineSegments].
  destruct (lineSegments c) as [segs|]; cbn [option_map deref bind].
  - rewrite !scanSegments_objects. cbn [bind]. reflexivity.
  - reflexivity.
Qed.

Lemma distort_asObject (frame : ImageData) (c : CurveData) (rot : num) :
  Untyped.distort frame (Some (asObject c)) rot = distort frame (Some c) rot.
Proof.
  unfold Untyped.distort, distort. cbn [deref bind asObject Untyped.obj_bounds].
  apply forEach_ext. intros s y _. apply forEach_ext. intros s' x _.
  unfold Untyped.pixelStep, pixelStep.
  change (option_map (map Some) (lineSegments c))
    with (Untyped.obj_lineSegments (asObject c)).
  now rewrite sourceCoord_asObject.
Qed.


(** On a frame with pixels and a curve of the data model the untyped
    [applyDistortion] is the typed one. *)
Lemma applyDistortion_asObject (frame : ImageData) (c : CurveData) (rot : num) :
  (0 < width frame)%nat -> (0 < height frame)%nat ->
  Untyped.applyDistortion frame (Some (asObject c)) rot
  = match applyDistortion frame (Some c) rot with
    | Ok out => Untyped.Returned out
    | TypeError => Untyped.TypeErrorThrown
    end.
Proof.
  intros Hw Hh. unfold Untyped.applyDistortion, applyDistortion.
  destruct (Nat.eqb_spec (width frame) 0); [lia|].
  destruct (Nat.eqb_spec (height frame) 0); [lia|].
  cbn [orb]. rewrite distort_asObject.
  destruct (distort frame (Some c) rot); reflexivity.
Qed.


End Refinement.

(** ** Claims about exceptions *)

Section UntypedClaims.



Lemma applyDistortion_objects_total (frame : ImageData) (c : CurveData)
    (segs : list LineSegment) (rotation : num) :
  lineSegments c = Some segs -> (0 < width frame)%nat -> (0 < height frame)%nat ->
  exists out,
    Untyped.applyDistortion frame (Some (asObject c)) rotation = Untyped.Returned out.
Proof.
  intros Hs Hw Hh. rewrite applyDistortion_asObject by assumption.
  destruct (distort_total frame c rotation segs Hs) as [cv Hcv].
  unfold applyDistortion. rewrite Hcv. cbn [bind]. eauto.
Qed.




End UntypedClaims.

(** * The rest of the component *)

(** ** More of the curve normaliser *)

Section NormaliserMore.

Lemma min_max_ordered (a b : num) :
  le (Num.min a b) (Num.max a b) = negb (is_nan a) && negb (is_nan b).
Proof.
  destruct a as [p| | |], b as [q| | |]; try reflexivity.
  unfold Num.min, Num.max, le.
  destruct (Qle_bool p q) eqn:E; [exact E|].
  simpl. apply Qle_bool_iff.
  destruct (Qlt_le_dec q p) as [H|H]; [now apply Qlt_le_weak|].
  apply Qle_bool_iff in H. congruence.
Qed.

(** X1: the interval a segment is converted to is ordered, [yMin <= yMax],
    exactly when neither of its mapped endpoints is NaN. *)
Theorem X1_interval_ordered (b : CanvasBounds) (seg : LineSegment) :
  le (yMin (convertSegment b seg)) (yMax (convertSegment b seg))
  = negb (is_nan (physicalY b (y1 seg))) && negb (is_nan (physicalY b (y2 seg))).
Proof.
  destruct (convertSegment_fields b seg) as (-> & -> & _).
  apply min_max_ordered.
Qed.

Variables (bx yt yb : Q).

Let b : CanvasBounds := mkBounds (Fin bx) (Fin yt) (Fin yb).

Lemma physicalY_val (y : Q) :
  ~ yb - yt == 0 ->
  val (physicalY b (Fin y)) ((y - yt) / (yb - yt) * 4 - 2).
Proof.
  intros Hne. unfold physicalY, physicalHalfHeight.
  apply val_sub; [|apply val_Fin].
  apply val_mul; [|apply (val_Fin 4)].
  apply val_div; [| |assumption]; apply val_sub; apply val_Fin.
Qed.

Lemma depth_val (x : Q) :
  ~ bx == 0 ->
  val (depth b (Fin x)) ((x - bx) / bx).
Proof.
  intros Hne. unfold depth, physicalMaxDepth.
  apply val_eq with (- ((bx - x) / bx * 1))%Q; [|field; assumption].
  apply val_neg, val_mul; [|apply (val_Fin 1)].
  apply val_div; [| |assumption]; [apply val_sub|]; apply val_Fin.
Qed.

Lemma canonical_eq (a a' : num) (v : Q) :
  canonical a -> canonical a' -> val a v -> val a' v -> a = a'.
Proof.
  intros [r ->] [r' ->] (p & E & Hp) (p' & E' & Hp').
  injection E as E. injection E' as E'. unfold fin.
  apply (f_equal Fin), Qred_complete.
  rewrite <- (Qred_correct r), <- (Qred_correct r'), E, E', Hp, Hp'. reflexivity.
Qed.

Lemma canonical_of_Z (a : num) (z : Z) :
  canonical a -> val a (inject_Z z) -> a = of_Z z.
Proof.
  intros Ha Hv. apply canonical_eq with (inject_Z z); try assumption.
  - exists (inject_Z z). symmetry. apply fin_inject_Z.
  - apply val_of_Z.
Qed.

Lemma canonical_sub (a c : num) (p q : Q) :
  val a p -> val c q -> canonical (sub a c).
Proof. intros (p' & -> & _) (q' & -> & _). now exists (p' - q')%Q. Qed.

Lemma physicalY_canonical (y : Q) : ~ yb - yt == 0 -> canonical (physicalY b (Fin y)).
Proof.
  intros Hne. unfold physicalY, physicalHalfHeight.
  eapply canonical_sub; [|apply val_Fin].
  apply val_mul; [|apply (val_Fin 4)].
  apply val_div; [| |exact Hne]; apply val_sub; apply val_Fin.
Qed.

(** The converted segment, through the two maps. *)
Lemma convertSegment_maps (c : CanvasBounds) (seg : LineSegment) :
  convertSegment c seg =
  let y1Physical := physicalY c (y1 seg) in
  let y2Physical := physicalY c (y2 seg) in
  let z0 := if le y1Physical y2Physical then depth c (x1 seg) else depth c (x2 seg) in
  let z2 := if le y1Physical y2Physical then depth c (x2 seg) else depth c (x1 seg) in
  {| yMin := Num.min y1Physical y2Physical; yMax := Num.max y1Physical y2Physical;
     z0 := z0; z1 := div (add z0 z2) two; z2 := z2 |}.
Proof.
  unfold convertSegment, physicalY, depth. cbv zeta.
  destruct (le _ _); reflexivity.
Qed.

Lemma le_val (a c : num) (p q : Q) :
  val a p -> val c q -> (p <= q)%Q -> le a c = true.
Proof. intros Ha Hc H. rewrite (val_le a c p q Ha Hc). now apply Qle_bool_iff. Qed.

Lemma lt_val (a c : num) (p q : Q) :
  val a p -> val c q -> (p < q)%Q -> lt a c = true.
Proof.
  intros (p' & -> & Hp) (q' & -> & Hq) H. simpl.
  apply negb_true_iff. destruct (Qle_bool q' p') eqn:E; [|reflexivity].
  apply Qle_bool_iff in E. lra.
Qed.

(** X3: for finite bounds with [yBottom > yTop], both of magnitude at most
    2^1022 (so that [yBottom - yTop] does not overflow), the row map sends
    [yTop] to -2 and [yBottom] to 2, and a segment whose rows lie between
    them is converted to an interval inside [-2, 2]. *)
Theorem X3_physical_range (a1 c1 a2 c2 : Q) :
  midRange yt -> midRange yb ->
  (yt < yb)%Q -> (yt <= c1 <= yb)%Q -> (yt <= c2 <= yb)%Q ->
  let p := convertSegment b (mkSeg (Fin a1) (Fin c1) (Fin a2) (Fin c2)) in
  physicalY b (Fin yt) = of_Z (-2) /\
  physicalY b (Fin yb) = of_Z 2 /\
  le (of_Z (-2)) (yMin p) = true /\
  le (yMin p) (yMax p) = true /\
  le (yMax p) (of_Z 2) = true.
Proof.
  intros _ _ Hy [L1 U1] [L2 U2] p.
  assert (~ yb - yt == 0) as Hd by lra.
  assert (forall c, (yt <= c <= yb)%Q ->
            le (of_Z (-2)) (physicalY b (Fin c)) = true /\
            le (physicalY b (Fin c)) (of_Z 2) = true) as Hrange.
  { intros c [L U].
    assert (0 <= (c - yt) / (yb - yt) <= 1)%Q as [H0 H1].
    { split.
      - apply Qle_shift_div_l; lra.
      - apply Qle_shift_div_r; lra. }
    split.
    - eapply le_val; [apply val_of_Z | apply (physicalY_val c Hd)|].
      change (inject_Z (-2)) with (-2)%Q. lra.
    - eapply le_val; [apply (physicalY_val c Hd) | apply val_of_Z|].
      change (inject_Z 2) with 2%Q. lra. }
  split; [|split].
  - apply canonical_of_Z; [now apply physicalY_canonical|].
    eapply val_eq; [apply (physicalY_val yt Hd)|].
    change (inject_Z (-2)) with (-2)%Q. field. exact Hd.
  - apply canonical_of_Z; [now apply physicalY_canonical|].
    eapply val_eq; [apply (physicalY_val yb Hd)|].
    change (inject_Z 2) with 2%Q. field. exact Hd.
  - unfold p.
    destruct (convertSegment_fields b (mkSeg (Fin a1) (Fin c1) (Fin a2) (Fin c2)))
      as (-> & -> & _).
    rewrite min_max_ordered. simpl y1; simpl y2.
    destruct (Hrange c1 (conj L1 U1)) as [A1 B1].
    destruct (Hrange c2 (conj L2 U2)) as [A2 B2].
    destruct (physicalY_val c1 Hd) as (v1 & E1 & _).
    destruct (physicalY_val c2 Hd) as (v2 & E2 & _).
    rewrite E1, E2 in *. unfold Num.min, Num.max.
    destruct (le (Fin v1) (Fin v2)); auto.
Qed.

(** X4: with [bounds.x > 0], a segment with both ends left of the
    centreline has negative depths, one with both ends right of it positive
    depths, and one with both ends in [0, bounds.x] depths in [-1, 0]. *)
Theorem X4_depth_sign (a1 a2 : Q) (c1 c2 : num) :
  (0 < bx)%Q ->
  let p := convertSegment b (mkSeg (Fin a1) c1 (Fin a2) c2) in
  ((a1 < bx)%Q -> (a2 < bx)%Q ->
     lt (z0 p) zero = true /\ lt (z1 p) zero = true /\ lt (z2 p) zero = true) /\
  ((bx < a1)%Q -> (bx < a2)%Q ->
     lt zero (z0 p) = true /\ lt zero (z1 p) = true /\ lt zero (z2 p) = true) /\
  ((0 <= a1 <= bx)%Q -> (0 <= a2 <= bx)%Q ->
     le (of_Z (-1)) (z0 p) = true /\ le (z0 p) zero = true /\
     le (of_Z (-1)) (z1 p) = true /\ le (z1 p) zero = true /\
     le (of_Z (-1)) (z2 p) = true /\ le (z2 p) zero = true).
Proof.
  intros Hx p.
  assert (~ bx == 0) as Hne by lra.
  assert (exists q0 q2,
            val (z0 p) q0 /\ val (z2 p) q2 /\ val (z1 p) ((q0 + q2) / 2) /\
            ((q0 == (a1 - bx) / bx /\ q2 == (a2 - bx) / bx) \/
             (q0 == (a2 - bx) / bx /\ q2 == (a1 - bx) / bx)))%Q
    as (q0 & q2 & V0 & V2 & V1 & Hq).
  { unfold p.
    destruct (convertSegment_fields b (mkSeg (Fin a1) c1 (Fin a2) c2))
      as (_ & _ & -> & Hz). simpl x1 in Hz; simpl x2 in Hz.
    pose proof (depth_val a1 Hne) as D1. pose proof (depth_val a2 Hne) as D2.
    destruct Hz as [[-> ->] | [-> ->]]; eexists _, _;
      (split; [eassumption|]); (split; [eassumption|]);
      (split; [apply val_div; [apply val_add; eassumption | apply (val_Fin 2) | discriminate]|]);
      [left | right]; split; reflexivity. }
  assert (forall a, (a < bx -> (a - bx) / bx < 0) /\ (bx < a -> 0 < (a - bx) / bx) /\
                    (0 <= a <= bx -> -1 <= (a - bx) / bx <= 0))%Q as Hsign.
  { intros a. repeat split.
    - intros H. apply Qlt_shift_div_r; lra.
    - intros H. apply Qlt_shift_div_l; lra.
    - apply Qle_shift_div_l; lra.
    - apply Qle_shift_div_r; lra. }
  destruct (Hsign a1) as (N1 & P1 & R1). destruct (Hsign a2) as (N2 & P2 & R2).
  clear Hsign. revert Hq N1 P1 R1 N2 P2 R2.
  generalize ((a1 - bx) / bx)%Q ((a2 - bx) / bx)%Q. intros d1 d2 Hq N1 P1 R1 N2 P2 R2.
  apply (val_eq _ _ ((q0 + q2) * (1 # 2))) in V1; [|field].
  assert (val zero 0) as Vz by apply val_Fin.
  assert (val (of_Z (-1)) (-1)) as Vm by apply val_Fin.
  split; [|split].
  - intros L1 L2. specialize (N1 L1). specialize (N2 L2).
    repeat split; eapply lt_val; try eassumption; destruct Hq as [[E0 E2]|[E0 E2]]; lra.
  - intros L1 L2. specialize (P1 L1). specialize (P2 L2).
    repeat split; eapply lt_val; try eassumption; destruct Hq as [[E0 E2]|[E0 E2]]; lra.
  - intros L1 L2. specialize (R1 L1). specialize (R2 L2).
    repeat split; eapply le_val; try eassumption; destruct Hq as [[E0 E2]|[E0 E2]]; lra.
Qed.

(** X5: a segment whose two ends are mapped to different rows
    ([y1Physical < y2Physical] or [y2Physical < y1Physical]) is converted to
    the same segment whichever of its ends is given first: the orientation
    test gives [z0] to the lower row in both cases. *)
Theorem X5_endpoint_order (c : CanvasBounds) (a1 c1 a2 c2 : num) :
  lt (physicalY c c1) (physicalY c c2) = true \/
  lt (physicalY c c2) (physicalY c c1) = true ->
  convertSegment c (mkSeg a2 c2 a1 c1) = convertSegment c (mkSeg a1 c1 a2 c2).
Proof.
  intros Hrows.
  rewrite !convertSegment_maps. cbv zeta. simpl x1; simpl x2; simpl y1; simpl y2.
  revert Hrows. generalize (physicalY c c1) (physicalY c c2). intros u v Hrows.
  assert (le u v = negb (le v u) /\ Num.min v u = Num.min u v /\
          Num.max v u = Num.max u v) as (Hle & Hmin & Hmax).
  { destruct u as [p| | |], v as [q| | |]; simpl in Hrows;
      try (destruct Hrows; discriminate); try (repeat split; reflexivity).
    unfold Num.min, Num.max, le.
    assert (forall r r', Qle_bool r r' = false -> Qle_bool r' r = true) as Htot.
    { intros a b' L. destruct (Qlt_le_dec b' a) as [G|G].
      - now apply Qle_bool_iff, Qlt_le_weak.
      - apply Qle_bool_iff in G. congruence. }
    assert (Qle_bool p q = negb (Qle_bool q p)) as E.
    { destruct Hrows as [H|H]; apply negb_true_iff in H.
      - rewrite H. now apply Htot.
      - rewrite H. now rewrite (Htot _ _ H). }
    rewrite E. destruct (Qle_bool q p); repeat split; reflexivity. }
  rewrite Hle, Hmin, Hmax. destruct (le v u); reflexivity.
Qed.

End NormaliserMore.

(** ** More of the displacement mapper *)

Section MapperMore.

(** A property of the loop state that each run of the body keeps is kept
    by the loop. *)
Lemma forEach_invariant {A S : Type} (P : S -> Prop) (body : S -> A -> result S)
    (l : list A) (s s' : S) :
  (forall s a s', body s a = Ok s' -> P s -> P s') ->
  forEach body l s = Ok s' -> P s -> P s'.
Proof.
  intros Hbody. revert s. induction l as [|a l IH]; simpl; intros s Hrun Hs.
  - injection Hrun as <-. exact Hs.
  - destruct (body s a) as [s1|] eqn:E; simpl in Hrun; [|discriminate].
    apply (IH s1 Hrun). eapply Hbody; eassumption.
Qed.

Lemma store_length (arr : list Byte.byte) (i : num) (v : option Byte.byte) :
  length (store arr i v) = length arr.
Proof. unfold store. destruct (index_of i); [apply length_insert | reflexivity]. Qed.

Lemma copyPixel_length (imageData : list Byte.byte) (w h : nat) (sx sy : num)
    (x y : nat) (c : Canvas) :
  length (outputData (copyPixel imageData w h sx sy x y c)) = length (outputData c).
Proof.
  unfold copyPixel. destruct (inFrame w h sx sy); [|reflexivity].
  unfold copyChannel. cbn [outputData]. now rewrite !store_length.
Qed.

(** X7: whenever [applyDistortion] returns, the frame it returns has the
    width and the height of the input and a buffer of four bytes per pixel,
    whatever the length of the input buffer. *)
Theorem X7_output_dimensions (frame out : ImageData) (curve : option CurveData) (rot : num) :
  applyDistortion frame curve rot = Ok out ->
  width out = width frame /\ height out = height frame /\ wf_image out.
Proof.
  unfold applyDistortion.
  destruct (distort frame curve rot) as [c|] eqn:Hc; [|discriminate].
  intros [= <-]. split; [reflexivity|]. split; [reflexivity|].
  unfold wf_image. cbn [data width height].
  unfold distort in Hc. destruct curve as [cv|]; [|discriminate].
  cbn [deref bind] in Hc.
  set (P := fun s : Canvas =>
              length (outputData s) = (4 * (width frame * height frame))%nat).
  change (P c).
  eapply (forEach_invariant P); [|exact Hc|apply length_replicate].
  intros s y s' Hrow Hs.
  eapply (forEach_invariant P); [|exact Hrow|exact Hs].
  intros s1 x s2 Hstep Hs1. unfold pixelStep in Hstep.
  destruct (sourceCoord _ _ _ _ _ _) as [[sx sy]|]; [|discriminate].
  injection Hstep as <-. unfold P. now rewrite copyPixel_length.
Qed.

Lemma X7_output_dimensions_witness :
  let out := {| width := 2; height := 2;
                data := px Byte.x01 Byte.x02 Byte.x03 Byte.xff
                     ++ px Byte.x11 Byte.x12 Byte.x13 Byte.xff
                     ++ px Byte.x00 Byte.x00 Byte.x00 Byte.x00
                     ++ px Byte.x21 Byte.x22 Byte.x23 Byte.xff |} in
  width out = width frame2x2 /\ height out = height frame2x2 /\ wf_image out.
Proof.
  intros out.
  apply (X7_output_dimensions frame2x2 out (Some scenarioCurve) (of_Z 0)).
  vm_compute. reflexivity.
Defined.





End MapperMore.

Section MapperErrors.

Variables (frame : ImageData) (rot : num).

Hypothesis Hw : (0 < width frame)%nat.
Hypothesis Hh : (0 < height frame)%nat.

Lemma applyDistortion_sized (curve : option Untyped.CurveObject) :
  Untyped.applyDistortion frame curve rot
  = match Untyped.distort frame curve rot with
    | Ok c => Untyped.Returned {| width := width frame; height := height frame;
                                  data := outputData c |}
    | TypeError => Untyped.TypeErrorThrown
    end.
Proof.
  unfold Untyped.applyDistortion.
  destruct (Nat.eqb_spec (width frame) 0); [lia|].
  destruct (Nat.eqb_spec (height frame) 0); [lia|]. reflexivity.
Qed.

(** On a frame with pixels the loop throws as soon as the first pixel does. *)
Lemma distort_first_pixel (b : CanvasBounds)
    (segs : option (list (option LineSegment))) :
  Untyped.sourceCoord b segs rot (width frame) (height frame) 0 0 = TypeError ->
  Untyped.distort frame
    (Some {| Untyped.obj_bounds := Some b; Untyped.obj_lineSegments := segs |}) rot
  = TypeError.
Proof.
  intros Hsrc. unfold Untyped.distort.
  cbn [deref bind Untyped.obj_bounds Untyped.obj_lineSegments].
  destruct (width frame) as [|w'] eqn:Ew; [lia|].
  destruct (height frame) as [|h'] eqn:Eh; [lia|].
  cbn [seq forEach]. unfold Untyped.pixelStep at 1.
  rewrite Ew, Eh, Hsrc. reflexivity.
Qed.

Lemma sourceCoord_no_list (b : CanvasBounds) (w h x y : nat) :
  knownRotation rot = true -> Untyped.sourceCoord b None rot w h x y = TypeError.
Proof.
  intros Hk. unfold knownRotation in Hk. unfold Untyped.sourceCoord.
  destruct (eqb rot (of_Z 0)); [reflexivity|].
  destruct (eqb rot (of_Z 90)); [reflexivity|].
  destruct (eqb rot (of_Z 180)); [reflexivity|].
  destruct (eqb rot (of_Z 270)); [reflexivity | discriminate].
Qed.

Lemma sourceCoord_null_entry (b : CanvasBounds) (rest : list (option LineSegment))
    (w h x y : nat) :
  knownRotation rot = true ->
  Untyped.sourceCoord b (Some (None :: rest)) rot w h x y = TypeError.
Proof.
  intros Hk. unfold knownRotation in Hk. unfold Untyped.sourceCoord.
  destruct (eqb rot (of_Z 0)); [reflexivity|].
  destruct (eqb rot (of_Z 90)); [reflexivity|].
  destruct (eqb rot (of_Z 180)); [reflexivity|].
  destruct (eqb rot (of_Z 270)); [reflexivity | discriminate].
Qed.

Lemma distort_objects_unknown_rotation (b : CanvasBounds)
    (segs : option (list (option LineSegment))) :
  knownRotation rot = false ->
  exists c,
    Untyped.distort frame
      (Some {| Untyped.obj_bounds := Some b; Untyped.obj_lineSegments := segs |}) rot
    = Ok c.
Proof.
  unfold knownRotation. rewrite !orb_false_iff. intros [[[H0 H90] H180] H270].
  eexists. unfold Untyped.distort.
  cbn [deref bind Untyped.obj_bounds Untyped.obj_lineSegments].
  apply (forEach_pure _
           (fun c y => fold_left (fun c x =>
              copyPixel (data frame) (width frame) (height frame)
                        (of_nat x) (of_nat y) x y c) (seq 0 (width frame)) c)).
  intros c y _. apply forEach_pure. intros c' x _.
  unfold Untyped.pixelStep, Untyped.sourceCoord.
  now rewrite H0, H90, H180, H270.
Qed.

End MapperErrors.

Section MapperErrorsClaim.

(** X9: when [applyDistortion] throws.  On an empty frame [getImageData]
    throws an [IndexSizeError].  On a frame with pixels a [TypeError] is
    thrown for a curve that is absent or has no [bounds], and, at a rotation
    of 0, 90, 180 or 270, for a curve without [lineSegments] or whose first
    entry is null; the call returns at any other rotation, and at every
    rotation when [bounds] is present and every entry is a segment. *)
Theorem X9_when_applyDistortion_throws (frame : ImageData) (rot : num) :
  (width frame = 0%nat \/ height frame = 0%nat ->
   forall curve, Untyped.applyDistortion frame curve rot = Untyped.IndexSizeErrorThrown) /\
  ((0 < width frame)%nat -> (0 < height frame)%nat ->
   Untyped.applyDistortion frame None rot = Untyped.TypeErrorThrown /\
   (forall segs,
      Untyped.applyDistortion frame
        (Some {| Untyped.obj_bounds := None; Untyped.obj_lineSegments := segs |}) rot
      = Untyped.TypeErrorThrown) /\
   (forall b, knownRotation rot = true ->
      Untyped.applyDistortion frame
        (Some {| Untyped.obj_bounds := Some b; Untyped.obj_lineSegments := None |}) rot
      = Untyped.TypeErrorThrown) /\
   (forall b rest, knownRotation rot = true ->
      Untyped.applyDistortion frame
        (Some {| Untyped.obj_bounds := Some b;
                 Untyped.obj_lineSegments := Some (None :: rest) |}) rot
      = Untyped.TypeErrorThrown) /\
   (forall b segs, knownRotation rot = false ->
      exists out,
        Untyped.applyDistortion frame
          (Some {| Untyped.obj_bounds := Some b; Untyped.obj_lineSegments := segs |}) rot
        = Untyped.Returned out) /\
   (forall b segs,
      exists out,
        Untyped.applyDistortion frame
          (Some {| Untyped.obj_bounds := Some b;
                   Untyped.obj_lineSegments := Some (map Some segs) |}) rot
        = Untyped.Returned out)).
Proof.
  split.
  - intros [E | E] curve; unfold Untyped.applyDistortion; rewrite E.
    + reflexivity.
    + cbn [Nat.eqb]. now rewrite orb_true_r.
  - intros Hw Hh.
    split; [now rewrite applyDistortion_sized|].
    split; [intros segs; now rewrite applyDistortion_sized|].
    split; [|split; [|split]].
    + intros b Hk. rewrite applyDistortion_sized by assumption.
      rewrite distort_first_pixel; [reflexivity | assumption | assumption|].
      now apply sourceCoord_no_list.
    + intros b rest Hk. rewrite applyDistortion_sized by assumption.
      rewrite distort_first_pixel; [reflexivity | assumption | assumption|].
      now apply sourceCoord_null_entry.
    + intros b segs Hk. rewrite applyDistortion_sized by assumption.
      destruct (distort_objects_unknown_rotation frame rot b segs Hk) as [c ->]. eauto.
    + intros b segs.
      apply (applyDistortion_objects_total frame
               {| bounds := b; lineSegments := Some segs |} segs rot);
        [reflexivity | assumption | assumption].
Qed.

End MapperErrorsClaim.

Section Interpolation.

Lemma convex_between (lo hi a1 a2 t : Q) :
  (lo <= a1 <= hi -> lo <= a2 <= hi -> 0 <= t <= 1 ->
   lo <= a1 + t * (a2 - a1) <= hi)%Q.
Proof.
  intros [L1 U1] [L2 U2] [T0 T1].
  assert (0 <= t * (a2 - lo))%Q by (apply Qmult_le_0_compat; lra).
  assert (0 <= (1 - t) * (a1 - lo))%Q by (apply Qmult_le_0_compat; lra).
  assert (0 <= t * (hi - a2))%Q by (apply Qmult_le_0_compat; lra).
  assert (0 <= (1 - t) * (hi - a1))%Q by (apply Qmult_le_0_compat; lra).
  split.
  - assert (a1 + t * (a2 - a1) == lo + (t * (a2 - lo) + (1 - t) * (a1 - lo)))%Q as E
      by ring.
    rewrite E. lra.
  - assert (a1 + t * (a2 - a1) == hi - (t * (hi - a2) + (1 - t) * (hi - a1)))%Q as E
      by ring.
    rewrite E. lra.
Qed.

Variables (a1 c1 a2 c2 : Q).

Let seg : LineSegment := mkSeg (Fin a1) (Fin c1) (Fin a2) (Fin c2).

Lemma contains_finite (curveY : num) (cy : Q) :
  val curveY cy -> contains seg curveY = true ->
  (c1 <= cy <= c2)%Q \/ (c2 <= cy <= c1)%Q.
Proof.
  intros (p & -> & Hp). unfold contains, ge, seg. cbn [y1 y2].
  unfold Num.min, Num.max, le.
  destruct (Qle_bool c1 c2); intros H; apply andb_true_iff in H as [H1 H2];
    apply Qle_bool_iff in H1, H2; rewrite Hp in H1, H2; [left | right]; split; assumption.
Qed.

(** The parameter of a matched finite segment is in [0, 1]. *)
Lemma interpolation_unit (curveY : num) (cy : Q) :
  val curveY cy -> contains seg curveY = true ->
  exists t, val (interpolation seg curveY) t /\ (0 <= t <= 1)%Q /\
            val (interpolate seg curveY) (a1 + t * (a2 - a1)).
Proof.
  intros Hc Hin. pose proof (contains_finite curveY cy Hc Hin) as Hrange.
  assert (forall t, val (interpolation seg curveY) t ->
                    val (interpolate seg curveY) (a1 + t * (a2 - a1))) as Hx.
  { intros t Ht. unfold interpolate.
    apply val_add; [apply val_Fin|]. apply val_mul; [exact Ht|].
    apply val_sub; apply val_Fin. }
  assert (val (sub curveY (Fin c1)) (cy - c1)) as Hnum
    by (apply val_sub; [exact Hc | apply val_Fin]).
  assert (val (sub (Fin c2) (Fin c1)) (c2 - c1)) as Hden
    by (apply val_sub; apply val_Fin).
  destruct (Qeq_dec c2 c1) as [E|E].
  - (* zero vertical extent: the denominator is 1 and the row is the segment's *)
    exists 0%Q.
    assert (val (interpolation seg curveY) 0) as Ht.
    { unfold interpolation, or_else. unfold seg at 2 3. cbn [y1 y2].
      rewrite (sub_falsy (Fin c2) (Fin c1)) by (now apply Qeq_bool_iff).
      apply val_eq with ((cy - c1) / 1)%Q.
      - apply val_div; [exact Hnum | apply (val_Fin 1) | discriminate].
      - field_simplify. lra. }
    split; [exact Ht|]. split; [lra|]. now apply Hx.
  - exists ((cy - c1) / (c2 - c1))%Q.
    assert (~ c2 - c1 == 0) as Hne by (intros Z; apply E; lra).
    assert (val (interpolation seg curveY) ((cy - c1) / (c2 - c1))) as Ht.
    { unfold interpolation, or_else. unfold seg at 2 3. cbn [y1 y2].
      rewrite (val_truthy _ _ Hden Hne). now apply val_div. }
    split; [exact Ht|]. split; [|now apply Hx].
    destruct Hrange as [[L U] | [L U]].
    + split; [apply Qle_shift_div_l | apply Qle_shift_div_r]; lra.
    + assert ((cy - c1) / (c2 - c1) == (c1 - cy) / (c1 - c2))%Q as F
        by (field; split; [intros Z; apply E; lra | exact Hne]).
      rewrite F.
      split; [apply Qle_shift_div_l | apply Qle_shift_div_r]; lra.
Qed.

End Interpolation.

Section DisplacementBounds.

Lemma scanSegments_between (lo hi : Q) (segs : list LineSegment)
    (curveY curveX : num) (cy x0 : Q) :
  Forall (finiteSegment lo hi) segs ->
  val curveY cy -> val curveX x0 -> (lo <= x0 <= hi)%Q ->
  exists cx, val (scanSegments segs curveY curveX) cx /\ (lo <= cx <= hi)%Q.
Proof.
  intros Hsegs Hc Hx0 Hr. induction Hsegs as [|s segs Hs _ IH]; simpl.
  - now exists x0.
  - destruct (contains s curveY) eqn:Hin; [|exact IH].
    destruct Hs as (a1 & c1 & a2 & c2 & -> & R1 & R2).
    destruct (interpolation_unit a1 c1 a2 c2 curveY cy Hc Hin) as (t & _ & Ht & Hv).
    eexists. split; [exact Hv|]. now apply convex_between.
Qed.

(** X13: a curve whose segments all lie on the centreline (finite bounds,
    [bounds.x <> 0], [x1 == x2 == bounds.x], finite rows of magnitude at
    most 2^1022, so that no difference of two rows overflows) leaves every
    frame that has pixels unchanged, at every rotation, however many segments
    it has. *)
Theorem X13_centreline_curve_is_identity (frame : ImageData) (bx yt yb : Q)
    (segs : list LineSegment) (rot : num) :
  wf_image frame -> (0 < width frame)%nat -> (0 < height frame)%nat ->
  ~ bx == 0 ->
  Forall (finiteSegment bx bx) segs -> Forall midRangeRows segs ->
  applyDistortion frame
    (Some {| bounds := mkBounds (Fin bx) (Fin yt) (Fin yb); lineSegments := Some segs |})
    rot
  = Ok frame /\
  Untyped.applyDistortion frame
    (Some (asObject {| bounds := mkBounds (Fin bx) (Fin yt) (Fin yb);
                       lineSegments := Some segs |}))
    rot
  = Untyped.Returned frame.
Proof.
  intros Hwf Hpw Hph Hne Hsegs _.
  rewrite applyDistortion_asObject by assumption.
  cut (applyDistortion frame
         (Some {| bounds := mkBounds (Fin bx) (Fin yt) (Fin yb);
                  lineSegments := Some segs |}) rot = Ok frame).
  { intros ->. split; reflexivity. }
  set (b := mkBounds (Fin bx) (Fin yt) (Fin yb)).
  assert (forall curveY cy extent, val curveY cy ->
            displacement b segs curveY extent = zero) as Hd.
  { intros curveY cy extent Hc.
    apply displacement_centreline with bx; [apply val_Fin | exact Hne|].
    destruct (scanSegments_between bx bx segs curveY (bounds_x b) cy bx Hsegs Hc)
      as (cx & Hcx & L & U); [apply val_Fin | split; apply Qle_refl|].
    apply val_eq with cx; [exact Hcx | lra]. }
  assert (forall n m : nat, (n < m)%nat ->
            exists q, val (div (of_nat n) (of_nat m)) q /\
                      val (div (sub (of_nat m) (of_nat n)) (of_nat m)) (1 - q)) as Hfrac.
  { intros n m Hnm.
    assert (~ inject_Z (Z.of_nat m) == 0) as Hm.
    { change 0%Q with (inject_Z 0). rewrite inject_Z_injective. lia. }
    exists (inject_Z (Z.of_nat n) / inject_Z (Z.of_nat m))%Q. split.
    - apply val_div; [apply val_of_nat | apply val_of_nat | exact Hm].
    - eapply val_eq.
      + apply val_div; [apply val_sub; apply val_of_nat | apply val_of_nat | exact Hm].
      + field. exact Hm. }
  assert (forall q u, val u q ->
            exists cy, val (add (yTop b) (mul u (sub (yBottom b) (yTop b)))) cy) as Hrow.
  { intros q u Hu. eexists. apply val_add; [apply val_Fin|].
    apply val_mul; [exact Hu|]. apply val_sub; apply val_Fin. }
  apply applyDistortion_identity; [exact Hwf|].
  intros x y Hx Hy. unfold sourceCoord. cbn [lineSegments bounds deref bind]. fold b.
  destruct (Hfrac y (height frame) Hy) as (qy & Vy & Vy').
  destruct (Hfrac x (width frame) Hx) as (qx & Vx & Vx').
  destruct (Hrow _ _ Vy) as (r0 & R0). destruct (Hrow _ _ Vx) as (r90 & R90).
  destruct (Hrow _ _ Vy') as (r180 & R180). destruct (Hrow _ _ Vx') as (r270 & R270).
  rewrite (Hd _ _ (width frame) R0), (Hd _ _ (height frame) R90),
          (Hd _ _ (width frame) R180), (Hd _ _ (height frame) R270).
  rewrite floor_sub_zero, floor_add_zero, floor_sub_zero, floor_add_zero.
  case_guards; reflexivity.
Qed.

Lemma X13_centreline_curve_is_identity_witness :
  applyDistortion frame2x2
    (Some {| bounds := mkBounds (Fin 400) (Fin 50) (Fin 550);
             lineSegments := Some [ mkSeg (Fin 400) (Fin 50) (Fin 400) (Fin 200);
                                    mkSeg (Fin 400) (Fin 300) (Fin 400) (Fin 300) ] |})
    (of_Z 90)
  = Ok frame2x2.
Proof.
  apply (X13_centreline_curve_is_identity frame2x2 400 50 550).
  - reflexivity.
  - cbn [width frame2x2]. lia.
  - cbn [height frame2x2]. lia.
  - discriminate.
  - repeat constructor.
    + exists 400%Q, 50%Q, 400%Q, 200%Q. repeat split; discriminate.
    + exists 400%Q, 300%Q, 400%Q, 300%Q. repeat split; discriminate.
  - repeat constructor.
    + exists 50%Q, 200%Q. repeat split; discriminate.
    + exists 300%Q, 300%Q. repeat split; discriminate.
Defined.

End DisplacementBounds.

Section Controls.

Lemma rotateDistortion_step (k : nat) :
  (k < 4)%nat ->
  rotateDistortion (of_Z (90 * Z.of_nat k)) = of_Z (90 * Z.of_nat ((k + 1) mod 4)).
Proof.
  intros Hk. destruct k as [|[|[|[|k]]]]; [| | | |lia]; vm_compute; reflexivity.
Qed.

(** X14: the rotation control cycles through 0, 90, 180 and 270: after [n]
    uses, from the initial 0, the rotation is [90 * (n mod 4)].  So four
    uses restore the rotation, and the rotation [applyDistortion] is given
    is always one of the four it tests for. *)
Theorem X14_rotation_cycle (n : nat) :
  rotationAfter n = of_Z (90 * Z.of_nat (n mod 4)) /\
  rotationAfter (n + 4) = rotationAfter n /\
  knownRotation (rotationAfter n) = true.
Proof.
  assert (forall m, rotationAfter m = of_Z (90 * Z.of_nat (m mod 4))) as Hcycle.
  { induction m as [|m IH].
    - reflexivity.
    - change (rotationAfter (S m)) with (rotateDistortion (rotationAfter m)).
      rewrite IH.
      rewrite rotateDistortion_step by (apply Nat.mod_upper_bound; lia).
      rewrite Nat.Div0.add_mod_idemp_l.
      now replace (m + 1)%nat with (S m) by lia. }
  split; [apply Hcycle|]. split.
  - rewrite !Hcycle.
    replace (n + 4)%nat with (n + 1 * 4)%nat by lia.
    now rewrite Nat.Div0.mod_add.
  - rewrite Hcycle.
    pose proof (Nat.mod_upper_bound n 4 ltac:(lia)) as Hlt.
    destruct (n mod 4)%nat as [|[|[|[|k]]]]; [| | | |lia]; reflexivity.
Qed.

End Controls.

Section Camera.

Lemma prefix_append (s t : string) : String.prefix s (s +:+ t) = true.
Proof.
  induction s as [|a s IH]; simpl.
  - now destruct t.
  - destruct (Ascii.ascii_dec a a) as [_|N]; [exact IH | now destruct N].
Qed.

(** X15: whatever error [startCamera] catches, the message it shows starts
    with "Camera error: "; for an error whose name is none of the six it
    knows, the rest of the message is the error's own message, unchanged. *)
Theorem X15_camera_error_message (err : CameraError) :
  String.prefix "Camera error: " (cameraErrorMessage err) = true /\
  (Forall (fun known => String.eqb (err_name err) known = false)
     [ "NotFoundError"; "DevicesNotFoundError"; "NotAllowedError";
       "PermissionDeniedError"; "NotReadableError"; "TrackStartError" ] ->
   cameraErrorMessage err = "Camera error: " +:+ err_message err).
Proof.
  split.
  - unfold cameraErrorMessage. cbv zeta. case_guards; apply prefix_append.
  - intros H. unfold cameraErrorMessage.
    repeat match goal with
           | H : Forall _ (_ :: _) |- _ =>
               let E := fresh "E" in apply Forall_cons in H as [E H]; rewrite E
           end.
    reflexivity.
Qed.

Lemma X15_camera_error_message_witness :
  cameraErrorMessage (mkError "OverconstrainedError" "Constraints could not be satisfied")
  = "Camera error: " +:+ "Constraints could not be satisfied".
Proof.
  apply (proj2 (X15_camera_error_message
                  (mkError "OverconstrainedError" "Constraints could not be satisfied"))).
  repeat constructor.
Defined.

End Camera.

Section Guards.


End Guards.

(** ** Instances *)

Section Instances.

Lemma X3_physical_range_witness :
  let p := convertSegment scenarioBounds scenarioSegment in
  physicalY scenarioBounds (Fin 50) = of_Z (-2) /\
  physicalY scenarioBounds (Fin 550) = of_Z 2 /\
  le (of_Z (-2)) (yMin p) = true /\
  le (yMin p) (yMax p) = true /\
  le (yMax p) (of_Z 2) = true.
Proof.
  apply (X3_physical_range 400 50 550 400 50 300 550);
    [split; discriminate | split; discriminate
     | reflexivity | split; discriminate | split; discriminate].
Defined.

Lemma X4_depth_sign_witness :
  let p := convertSegment scenarioBounds
             (mkSeg (Fin 350) (of_Z 50) (Fin 300) (of_Z 550)) in
  lt (z0 p) zero = true /\ lt (z1 p) zero = true /\ lt (z2 p) zero = true.
Proof.
  intros p.
  destruct (X4_depth_sign 400 50 550 350 300 (of_Z 50) (of_Z 550) eq_refl) as [H _].
  apply H; reflexivity.
Defined.

Lemma X5_endpoint_order_witness :
  convertSegment scenarioBounds (mkSeg (of_Z 300) (of_Z 550) (of_Z 400) (of_Z 50))
  = convertSegment scenarioBounds (mkSeg (of_Z 400) (of_Z 50) (of_Z 300) (of_Z 550)).
Proof.
  apply (X5_endpoint_order scenarioBounds (of_Z 400) (of_Z 50) (of_Z 300) (of_Z 550)).
  left. reflexivity.
Defined.


End Instances.
